(** * Credit-based flow control of [ComputeInterceptor]

    A shallow embedding of
    [paddle/fluid/distributed/fleet_executor/compute_interceptor.cc]
    and the properties of its credit counters, its run gate and its
    execution loop. *)

From Stdlib Require Import ZArith List Bool Lia Sorted.
Import ListNotations.
Local Open Scope Z_scope.

(** ** 64-bit signed integers

    Every identifier and counter of the interceptor is an [int64_t].  The
    values are carried as [Z]; the two places where the code computes
    ([+= 1] and [-= 1]) go through [wrap64].  C++ leaves signed overflow
    undefined; the embedding takes the two's-complement result a 64-bit
    machine produces. *)

Module Int64.

Definition modulus : Z := 2 ^ 64.
Definition min_signed : Z := - 2 ^ 63.
(** [std::numeric_limits<int64_t>::max()] *)
Definition max_signed : Z := 2 ^ 63 - 1.

Definition wrap64 (z : Z) : Z := (z - min_signed) mod modulus + min_signed.

Definition add (x y : Z) : Z := wrap64 (x + y).
Definition sub (x y : Z) : Z := wrap64 (x - y).

Definition in_range (z : Z) : Prop := min_signed <= z <= max_signed.

End Int64.

(** ** Data model *)

(** Modelled from the spec: the message-type enumeration lives in the
    protocol description, which is not part of the sources at hand.  The
    handler distinguishes [DATA_IS_READY] (the spec's [DataReady]),
    [DATE_IS_USELESS] (the spec's [DataConsumed]) and everything else. *)
Inductive MessageType : Type :=
| DATA_IS_READY
| DATE_IS_USELESS
| OTHER_TYPE.

(** The two fields of [InterceptorMessage] the handler reads. *)
Record InterceptorMessage : Type := mkMsg {
  src_id : Z;
  message_type : MessageType
}.

(** Modelled from the spec: the header declaring [in_readys_] and
    [out_buffs_] is absent; the spec calls each "a mapping from peer
    StageId" to an edge.  A map from [int64_t] to a pair
    [(capacity, counter)] is kept as an association list in iteration
    order; [find] returns the first entry for a key and [emplace] keeps the
    keys ascending and never overwrites. *)
Definition edge : Type := (Z * (Z * Z))%type.
Definition edge_map : Type := list edge.

Definition peer (e : edge) : Z := fst e.
(** [it->second.first] *)
Definition capacity (e : edge) : Z := fst (snd e).
(** [it->second.second] *)
Definition counter (e : edge) : Z := snd (snd e).

Fixpoint find (id : Z) (m : edge_map) : option (Z * Z) :=
  match m with
  | [] => None
  | (k, v) :: rest => if k =? id then Some v else find id rest
  end.

Fixpoint emplace (id : Z) (v : Z * Z) (m : edge_map) : edge_map :=
  match m with
  | [] => [(id, v)]
  | (k, w) :: rest =>
      if id <? k then (id, v) :: m
      else if id =? k then m
      else (k, w) :: emplace id v rest
  end.

(** [it->second.second = c] for the entry [find] returned. *)
Fixpoint assign_second (id : Z) (c : Z) (m : edge_map) : edge_map :=
  match m with
  | [] => []
  | (k, (mx, cur)) :: rest =>
      if k =? id then (k, (mx, c)) :: rest
      else (k, (mx, cur)) :: assign_second id c rest
  end.

(** The mutable members of a [ComputeInterceptor]. *)
Record Interceptor : Type := mkInterceptor {
  (** upstream_id --> (max_ready_size, ready_size) *)
  in_readys_ : edge_map;
  (** downstream_id --> (max_buffer_size, used_size) *)
  out_buffs_ : edge_map
}.

Definition set_in_readys (m : edge_map) (s : Interceptor) : Interceptor :=
  mkInterceptor m (out_buffs_ s).
Definition set_out_buffs (m : edge_map) (s : Interceptor) : Interceptor :=
  mkInterceptor (in_readys_ s) m.

(** ** Effects

    A handler mutates the interceptor, sends messages, may abort through a
    failed [PADDLE_ENFORCE] and, in [Run], may loop.  A computation thus
    maps the interceptor to an outcome, the interceptor as the computation
    left it (also when it aborted) and the events it produced in order. *)

(** The error a failed enforce carries: [errors::NotFound], and
    [errors::OutOfRange] from a [PADDLE_ENFORCE_LE] or from a
    [PADDLE_ENFORCE_GE]. *)
Inductive EnforceError : Type :=
| NotFound
| OutOfRange_LE
| OutOfRange_GE.

(** The spec's names for them. *)
Definition UnknownPeer : EnforceError := NotFound.
Definition CreditOverflow : EnforceError := OutOfRange_LE.
Definition CreditUnderflow : EnforceError := OutOfRange_GE.

Inductive event : Type :=
| EvRun                                  (* one pass through the body of [Run] *)
| EvSend (dst : Z) (t : MessageType).    (* [Send(dst, msg)] *)

Inductive outcome (A : Type) : Type :=
| Ret (a : A)
| Throw (e : EnforceError)
| OutOfFuel.
Arguments Ret {A} a.
Arguments Throw {A} e.
Arguments OutOfFuel {A}.

Definition M (A : Type) : Type :=
  Interceptor -> outcome A * Interceptor * list event.

Definition ret {A} (a : A) : M A := fun s => (Ret a, s, []).

Definition bind {A B} (m : M A) (f : A -> M B) : M B :=
  fun s =>
    match m s with
    | (Ret a, s1, ev1) =>
        let '(r, s2, ev2) := f a s1 in (r, s2, ev1 ++ ev2)
    | (Throw e, s1, ev1) => (Throw e, s1, ev1)
    | (OutOfFuel, s1, ev1) => (OutOfFuel, s1, ev1)
    end.

Definition throw {A} (e : EnforceError) : M A := fun s => (Throw e, s, []).
Definition emit (ev : event) : M unit := fun s => (Ret tt, s, [ev]).
Definition modify (f : Interceptor -> Interceptor) : M unit :=
  fun s => (Ret tt, f s, []).

Declare Scope interceptor_scope.
Delimit Scope interceptor_scope with icp.
Notation "m1 ;; m2" := (bind m1 (fun _ => m2))
  (at level 61, right associativity) : interceptor_scope.
Local Open Scope interceptor_scope.

Definition result_of {A} (r : outcome A * Interceptor * list event) : outcome A :=
  fst (fst r).
Definition state_of {A} (r : outcome A * Interceptor * list event) : Interceptor :=
  snd (fst r).
Definition events_of {A} (r : outcome A * Interceptor * list event) : list event :=
  snd r.

(** Modelled from the spec: the enforce macros are declared outside the
    sources at hand; a failed check aborts the handler with the given error
    ("fail loudly and immediately"). *)
Definition PADDLE_ENFORCE (cond : bool) (e : EnforceError) : M unit :=
  if cond then ret tt else throw e.

(** Modelled from the spec: [Interceptor::Send] belongs to the actor
    substrate ("fire-and-forget send"); it is recorded as an event. *)
Definition Send (dst : Z) (t : MessageType) : M unit := emit (EvSend dst t).

(** ** The interceptor *)

(** [PrepareDeps], with the two local constants as arguments. *)
Definition PrepareDeps_sized (in_buff_size out_buff_size : Z)
    (upstream downstream : list Z) : Interceptor :=
  {| in_readys_ :=
       fold_left (fun m up_id => emplace up_id (in_buff_size, 0) m) upstream [];
     out_buffs_ :=
       fold_left (fun m down_id => emplace down_id (out_buff_size, 0) m) downstream [] |}.

Definition PrepareDeps (upstream downstream : list Z) : Interceptor :=
  let in_buff_size := Int64.max_signed in
  let out_buff_size := 2 in
  PrepareDeps_sized in_buff_size out_buff_size upstream downstream.

Definition IncreaseReady (up_id : Z) : M unit :=
  fun s =>
    match find up_id (in_readys_ s) with
    | None => throw NotFound s
    | Some (max_ready_size, ready_size) =>
        let ready_size := Int64.add ready_size 1 in
        (PADDLE_ENFORCE (ready_size <=? max_ready_size) OutOfRange_LE ;;
         modify (fun s => set_in_readys (assign_second up_id ready_size (in_readys_ s)) s)) s
    end.

Definition DecreaseBuff (down_id : Z) : M unit :=
  fun s =>
    match find down_id (out_buffs_ s) with
    | None => throw NotFound s
    | Some (_, used_size) =>
        let used_size := Int64.sub used_size 1 in
        (PADDLE_ENFORCE (used_size >=? 0) OutOfRange_GE ;;
         modify (fun s => set_out_buffs (assign_second down_id used_size (out_buffs_ s)) s)) s
    end.

Definition IsInputReady (s : Interceptor) : bool :=
  forallb (fun ins => negb (counter ins =? 0)) (in_readys_ s).

Definition CanWriteOutput (s : Interceptor) : bool :=
  forallb (fun outs => negb (counter outs =? capacity outs)) (out_buffs_ s).

(** A range-for over a map by reference: the body sees one entry, either
    aborts or stores a new counter in it and sends a message; an abort
    leaves the entries already visited as they were stored. *)
Fixpoint for_each (body : edge -> EnforceError + Z * event) (m : edge_map)
  : outcome unit * edge_map * list event :=
  match m with
  | [] => (Ret tt, [], [])
  | e :: rest =>
      match body e with
      | inl err => (Throw err, e :: rest, [])
      | inr (c, ev) =>
          let '(r, rest', evs) := for_each body rest in
          (r, (peer e, (capacity e, c)) :: rest', ev :: evs)
      end
  end.

Definition send_body (outs : edge) : EnforceError + Z * event :=
  let down_id := peer outs in
  let max_buff_size := capacity outs in
  let used_size := counter outs in
  let used_size := Int64.add used_size 1 in
  if used_size <=? max_buff_size
  then inr (used_size, EvSend down_id DATA_IS_READY)
  else inl OutOfRange_LE.

Definition SendDataReadyToDownStream : M unit :=
  fun s =>
    let '(r, m, evs) := for_each send_body (out_buffs_ s) in
    (r, set_out_buffs m s, evs).

Definition reply_body (ins : edge) : EnforceError + Z * event :=
  let up_id := peer ins in
  let ready_size := counter ins in
  let ready_size := Int64.sub ready_size 1 in
  if ready_size >=? 0
  then inr (ready_size, EvSend up_id DATE_IS_USELESS)
  else inl OutOfRange_GE.

Definition ReplyCompletedToUpStream : M unit :=
  fun s =>
    let '(r, m, evs) := for_each reply_body (in_readys_ s) in
    (r, set_in_readys m s, evs).

(** The condition of the [while] in [Run]. *)
Definition Run_gate (s : Interceptor) : bool :=
  IsInputReady s && CanWriteOutput s.

(** The body of the [while] in [Run]. *)
Definition Run_body : M unit :=
  emit EvRun ;;
  SendDataReadyToDownStream ;;
  ReplyCompletedToUpStream.

(** [Run]: [fuel] bounds the number of passes through the body. *)
Fixpoint Run (fuel : nat) : M unit :=
  fun s =>
    if Run_gate s then
      match fuel with
      | O => (OutOfFuel, s, [])
      | S fuel' => (Run_body ;; Run fuel') s
      end
    else ret tt s.

Definition Compute (fuel : nat) (msg : InterceptorMessage) : M unit :=
  match message_type msg with
  | DATA_IS_READY => IncreaseReady (src_id msg) ;; Run fuel
  | DATE_IS_USELESS => DecreaseBuff (src_id msg) ;; Run fuel
  | OTHER_TYPE => ret tt
  end.

(** The substrate hands the messages to the handler one at a time. *)
Fixpoint Deliver (fuel : nat) (msgs : list InterceptorMessage) : M unit :=
  match msgs with
  | [] => ret tt
  | msg :: rest => Compute fuel msg ;; Deliver fuel rest
  end.


(** ** Vocabulary of the properties *)

(** The data-model invariant of one edge: [0 <= counter <= capacity], the
    capacity being an [int64_t]. *)
Definition edge_ok (e : edge) : Prop :=
  0 <= counter e <= capacity e /\ capacity e <= Int64.max_signed.

Definition Inv (s : Interceptor) : Prop :=
  Forall edge_ok (in_readys_ s) /\ Forall edge_ok (out_buffs_ s).

(** No counter sits at the largest [int64_t]. *)
Definition below_max (s : Interceptor) : Prop :=
  Forall (fun e => counter e < Int64.max_signed) (in_readys_ s) /\
  Forall (fun e => counter e < Int64.max_signed) (out_buffs_ s).

(** An edge with a new counter stored in it. *)
Definition stored (c : Z) (e : edge) : edge := (peer e, (capacity e, c)).

(** One credit more, one credit less on an edge. *)
Definition credit_up (e : edge) : edge := (peer e, (capacity e, counter e + 1)).
Definition credit_down (e : edge) : edge := (peer e, (capacity e, counter e - 1)).

(** The interceptor after one full pass through the body of [Run]. *)
Definition after_pass (s : Interceptor) : Interceptor :=
  {| in_readys_ := map credit_down (in_readys_ s);
     out_buffs_ := map credit_up (out_buffs_ s) |}.

(** The messages one pass sends, in order. *)
Definition ready_msgs (s : Interceptor) : list event :=
  map (fun e => EvSend (peer e) DATA_IS_READY) (out_buffs_ s).
Definition reply_msgs (s : Interceptor) : list event :=
  map (fun e => EvSend (peer e) DATE_IS_USELESS) (in_readys_ s).

Definition is_run (ev : event) : bool :=
  match ev with EvRun => true | EvSend _ _ => false end.

Definition is_send (dst : Z) (t : MessageType) (ev : event) : bool :=
  match ev with
  | EvRun => false
  | EvSend d t' =>
      (d =? dst) &&
      match t, t' with
      | DATA_IS_READY, DATA_IS_READY => true
      | DATE_IS_USELESS, DATE_IS_USELESS => true
      | OTHER_TYPE, OTHER_TYPE => true
      | _, _ => false
      end
  end.

(** Work units run, and messages of one type sent to one peer. *)
Definition work_units (evs : list event) : nat := length (filter is_run evs).
Definition sent_to (dst : Z) (t : MessageType) (evs : list event) : nat :=
  length (filter (is_send dst t) evs).

Definition is_throw {A} (r : outcome A) : Prop :=
  match r with Throw _ => True | _ => False end.

(** The credit contract for one message in one state: a [DATA_IS_READY]
    comes from an upstream peer whose ready count is not at its capacity, a
    [DATE_IS_USELESS] from a downstream peer whose used count is not 0. *)
Definition allowed (s : Interceptor) (msg : InterceptorMessage) : Prop :=
  match message_type msg with
  | DATA_IS_READY =>
      exists max_ready_size ready_size,
        find (src_id msg) (in_readys_ s) = Some (max_ready_size, ready_size) /\
        ready_size <> max_ready_size
  | DATE_IS_USELESS =>
      exists max_buffer_size used_size,
        find (src_id msg) (out_buffs_ s) = Some (max_buffer_size, used_size) /\
        used_size <> 0
  | OTHER_TYPE => True
  end.

(** A message sequence respects the contract from [s] on when each message
    is allowed in the state the handler left after the ones before it. *)
Inductive Respects : Interceptor -> list InterceptorMessage -> Prop :=
| Respects_nil : forall s, Respects s []
| Respects_cons : forall s msg rest,
    allowed s msg ->
    (forall fuel s' evs,
        Compute fuel msg s = (Ret tt, s', evs) -> Respects s' rest) ->
    Respects s (msg :: rest).

(** [reachable_in s0 n s]: the handler, started in [s0], can be in [s]
    after [n] messages; a handler that aborted or is still inside its loop
    counts, so every state some run passes through between passes is
    covered. *)
Inductive reachable_in (s0 : Interceptor) : Z -> Interceptor -> Prop :=
| reach_init : reachable_in s0 0 s0
| reach_step : forall n s fuel msg,
    reachable_in s0 n s ->
    reachable_in s0 (n + 1) (state_of (Compute fuel msg s)).

(** The stage has a peer. *)
Definition has_edge (s : Interceptor) : Prop :=
  in_readys_ s <> [] \/ out_buffs_ s <> [].

(** Credits left before the loop must stop: on the first upstream edge if
    there is one, else room left on the first downstream edge. *)
Definition slack (s : Interceptor) : Z :=
  match in_readys_ s, out_buffs_ s with
  | ins :: _, _ => counter ins
  | [], outs :: _ => capacity outs - counter outs
  | [], [] => 0
  end.

(** *** Vocabulary of the further properties *)

(** What [PrepareDeps] fixes of a map: the peers and their capacities, in
    iteration order. *)
Definition layout (m : edge_map) : list (Z * Z) :=
  map (fun e => (peer e, capacity e)) m.

(** Two interceptors with the same peers and capacities. *)
Definition same_layout (s s' : Interceptor) : Prop :=
  layout (in_readys_ s') = layout (in_readys_ s) /\
  layout (out_buffs_ s') = layout (out_buffs_ s).

(** [k] credits less on an upstream edge, [k] more on a downstream one. *)
Definition credits_down (k : Z) (e : edge) : edge :=
  (peer e, (capacity e, counter e - k)).
Definition credits_up (k : Z) (e : edge) : edge :=
  (peer e, (capacity e, counter e + k)).

(** The interceptor after [k] full passes through the body of [Run]. *)
Definition after_passes (k : Z) (s : Interceptor) : Interceptor :=
  {| in_readys_ := map (credits_down k) (in_readys_ s);
     out_buffs_ := map (credits_up k) (out_buffs_ s) |}.

(** The events of one pass. *)
Definition pass_events (s : Interceptor) : list event :=
  EvRun :: ready_msgs s ++ reply_msgs s.

(** What each edge still allows: the ready count of an upstream edge, the
    room left on a downstream edge. *)
Definition credits (s : Interceptor) : list Z :=
  map counter (in_readys_ s) ++
  map (fun e => capacity e - counter e) (out_buffs_ s).

(** The smallest of them: the most restrictive edge. *)
Definition budget (s : Interceptor) : Z :=
  match credits s with
  | [] => 0
  | c :: rest => fold_right Z.min c rest
  end.

(** An event the stage may produce: a pass, a [DATA_IS_READY] to a
    downstream peer, a [DATE_IS_USELESS] to an upstream peer. *)
Definition expected_event (s : Interceptor) (ev : event) : Prop :=
  match ev with
  | EvRun => True
  | EvSend d DATA_IS_READY => In d (map peer (out_buffs_ s))
  | EvSend u DATE_IS_USELESS => In u (map peer (in_readys_ s))
  | EvSend _ OTHER_TYPE => False
  end.

(** Messages of type [t] that arrived from peer [id]. *)
Definition is_from (id : Z) (t : MessageType) (msg : InterceptorMessage) : bool :=
  (src_id msg =? id) &&
  match t, message_type msg with
  | DATA_IS_READY, DATA_IS_READY => true
  | DATE_IS_USELESS, DATE_IS_USELESS => true
  | OTHER_TYPE, OTHER_TYPE => true
  | _, _ => false
  end.

Definition arrived (id : Z) (t : MessageType) (msgs : list InterceptorMessage) : nat :=
  length (filter (is_from id t) msgs).

(** *** Conditions on single edges *)




(** ** Facts about 64-bit arithmetic *)

Module Int64Facts.
Import Int64.

Lemma wrap64_small z : in_range z -> wrap64 z = z.
Proof.
  unfold in_range, wrap64, min_signed, max_signed, modulus.
  intros H. rewrite Z.mod_small; lia.
Qed.

Lemma wrap64_in_range z : in_range (wrap64 z).
Proof.
  unfold in_range, wrap64, min_signed, max_signed, modulus.
  pose proof (Z.mod_pos_bound (z - - 2 ^ 63) (2 ^ 64) ltac:(lia)). lia.
Qed.

Lemma add_1_below z : min_signed <= z < max_signed -> add z 1 = z + 1.
Proof. intros H. apply wrap64_small. unfold in_range. lia. Qed.

Lemma sub_1_above z : min_signed < z <= max_signed -> sub z 1 = z - 1.
Proof. intros H. apply wrap64_small. unfold in_range. lia. Qed.

Lemma add_1_max : add max_signed 1 = min_signed.
Proof. reflexivity. Qed.

Lemma max_signed_pos : 2 < max_signed.
Proof. reflexivity. Qed.

Lemma min_signed_neg : min_signed < 0.
Proof. reflexivity. Qed.

End Int64Facts.
Import Int64Facts.

Example run_demo :
  Deliver 5 [mkMsg 7 DATA_IS_READY; mkMsg 7 DATA_IS_READY]
    (PrepareDeps_sized 3 2 [7] [9])
  = (Ret tt, mkInterceptor [(7, (3, 0))] [(9, (2, 2))],
     [EvRun; EvSend 9 DATA_IS_READY; EvSend 7 DATE_IS_USELESS;
      EvRun; EvSend 9 DATA_IS_READY; EvSend 7 DATE_IS_USELESS]).
Proof. vm_compute. reflexivity. Qed.

Example prepare_sorts :
  PrepareDeps [5; 3; 5] [4]
  = mkInterceptor [(3, (Int64.max_signed, 0)); (5, (Int64.max_signed, 0))]
                  [(4, (2, 0))].
Proof. reflexivity. Qed.

(** ** The range-for loop *)

Section ForEach.

Variable body : edge -> EnforceError + Z * event.


(** When the body goes through on every entry, the loop rewrites every
    entry and sends in map order. *)
Lemma for_each_all (upd : edge -> edge) (msg : edge -> event) m :
  Forall (fun e => body e = inr (counter (upd e), msg e) /\
                   upd e = stored (counter (upd e)) e) m ->
  for_each body m = (Ret tt, map upd m, map msg m).
Proof.
  induction 1 as [|e rest [Hb Hu] _ IH]; simpl; [reflexivity|].
  rewrite Hb, IH, Hu. reflexivity.
Qed.

(** When the body aborts on [e], the entries before [e] stay rewritten
    and their messages stay sent. *)
Lemma for_each_abort (upd : edge -> edge) (msg : edge -> event) pre e post err :
  Forall (fun e => body e = inr (counter (upd e), msg e) /\
                   upd e = stored (counter (upd e)) e) pre ->
  body e = inl err ->
  for_each body (pre ++ e :: post)
  = (Throw err, map upd pre ++ e :: post, map msg pre).
Proof.
  intros Hpre He.
  induction Hpre as [|p rest [Hb Hu] _ IH]; simpl.
  - rewrite He. reflexivity.
  - rewrite Hb, IH, Hu. reflexivity.
Qed.


End ForEach.

(** ** Edges *)

Lemma find_In id m v : find id m = Some v -> In (id, v) m.
Proof.
  induction m as [|[k w] rest IH]; simpl; [discriminate|].
  destruct (Z.eqb_spec k id) as [->|_].
  - intros [= ->]. now left.
  - intros H. right. auto.
Qed.

Lemma find_None id m : find id m = None <-> ~ In id (map peer m).
Proof.
  induction m as [|[k w] rest IH]; simpl.
  - tauto.
  - destruct (Z.eqb_spec k id) as [->|Hne].
    + split; [discriminate | intros H; exfalso; apply H; now left].
    + rewrite IH. unfold peer at 1. simpl. tauto.
Qed.

Lemma assign_second_Forall (P : edge -> Prop) id mx cur c m :
  find id m = Some (mx, cur) ->
  P (id, (mx, c)) ->
  Forall P m -> Forall P (assign_second id c m).
Proof.
  intros Hf Hp Hall. revert Hf.
  induction Hall as [|[k [mx' cur']] rest He Hrest IH]; simpl; [discriminate|].
  destruct (Z.eqb_spec k id) as [->|Hne].
  - intros [= -> ->]. constructor; assumption.
  - intros Hf. constructor; auto.
Qed.

(** What [assign_second] does, entry by entry: the first entry for [id]
    gets the new counter, every other entry is left alone. *)
Lemma assign_second_split id c m mx cur :
  find id m = Some (mx, cur) ->
  exists pre post,
    m = pre ++ (id, (mx, cur)) :: post /\
    ~ In id (map peer pre) /\
    assign_second id c m = pre ++ (id, (mx, c)) :: post.
Proof.
  induction m as [|[k [mx' cur']] rest IH]; simpl; [discriminate|].
  destruct (Z.eqb_spec k id) as [->|Hne].
  - intros [= -> ->]. exists [], rest. simpl. tauto.
  - intros Hf. destruct (IH Hf) as (pre & post & -> & Hnot & ->).
    exists ((k, (mx', cur')) :: pre), post. simpl.
    repeat split; try reflexivity.
    unfold peer at 1; simpl. tauto.
Qed.

Lemma find_assign_second_same id c m mx cur :
  find id m = Some (mx, cur) -> find id (assign_second id c m) = Some (mx, c).
Proof.
  induction m as [|[k [mx' cur']] rest IH]; simpl; [discriminate|].
  destruct (Z.eqb_spec k id) as [->|Hne]; simpl.
  - intros [= -> ->]. now rewrite Z.eqb_refl.
  - destruct (Z.eqb_spec k id); [contradiction | auto].
Qed.

Lemma find_assign_second_other id id' c m :
  id' <> id -> find id' (assign_second id c m) = find id' m.
Proof.
  intros Hne. induction m as [|[k [mx' cur']] rest IH]; simpl; [reflexivity|].
  destruct (Z.eqb_spec k id) as [->|Hk]; simpl.
  - destruct (Z.eqb_spec id id'); [congruence | reflexivity].
  - destruct (Z.eqb_spec k id'); [reflexivity | exact IH].
Qed.

(** ** The four counter operations *)

Lemma IncreaseReady_unknown up_id s :
  find up_id (in_readys_ s) = None ->
  IncreaseReady up_id s = (Throw NotFound, s, []).
Proof. intros H. unfold IncreaseReady. rewrite H. reflexivity. Qed.

Lemma IncreaseReady_found up_id s mx cur :
  find up_id (in_readys_ s) = Some (mx, cur) ->
  IncreaseReady up_id s =
    if Int64.add cur 1 <=? mx
    then (Ret tt,
          set_in_readys (assign_second up_id (Int64.add cur 1) (in_readys_ s)) s, [])
    else (Throw OutOfRange_LE, s, []).
Proof.
  intros H. unfold IncreaseReady. rewrite H.
  unfold bind, PADDLE_ENFORCE, modify.
  destruct (Int64.add cur 1 <=? mx); reflexivity.
Qed.

Lemma DecreaseBuff_unknown down_id s :
  find down_id (out_buffs_ s) = None ->
  DecreaseBuff down_id s = (Throw NotFound, s, []).
Proof. intros H. unfold DecreaseBuff. rewrite H. reflexivity. Qed.

Lemma DecreaseBuff_found down_id s mx cur :
  find down_id (out_buffs_ s) = Some (mx, cur) ->
  DecreaseBuff down_id s =
    if Int64.sub cur 1 >=? 0
    then (Ret tt,
          set_out_buffs (assign_second down_id (Int64.sub cur 1) (out_buffs_ s)) s, [])
    else (Throw OutOfRange_GE, s, []).
Proof.
  intros H. unfold DecreaseBuff. rewrite H.
  unfold bind, PADDLE_ENFORCE, modify.
  destruct (Int64.sub cur 1 >=? 0); reflexivity.
Qed.

(** An edge with room takes one more credit without wrapping around. *)
Lemma send_body_room e :
  edge_ok e -> counter e <> capacity e ->
  send_body e = inr (counter (credit_up e), EvSend (peer e) DATA_IS_READY) /\
  credit_up e = stored (counter (credit_up e)) e.
Proof.
  intros [Hc Hm] Hne. unfold send_body.
  rewrite add_1_below by (pose proof min_signed_neg; lia).
  destruct (Z.leb_spec (counter e + 1) (capacity e)); [|lia].
  split; reflexivity.
Qed.

Lemma send_body_full e :
  edge_ok e -> counter e = capacity e -> capacity e < Int64.max_signed ->
  send_body e = inl OutOfRange_LE.
Proof.
  intros [Hc Hm] Heq Hlt. unfold send_body.
  rewrite add_1_below by (pose proof min_signed_neg; lia).
  destruct (Z.leb_spec (counter e + 1) (capacity e)); [lia | reflexivity].
Qed.

(** An edge holding a credit gives one back. *)
Lemma reply_body_credit e :
  edge_ok e -> counter e <> 0 ->
  reply_body e = inr (counter (credit_down e), EvSend (peer e) DATE_IS_USELESS) /\
  credit_down e = stored (counter (credit_down e)) e.
Proof.
  intros [Hc Hm] Hne. unfold reply_body.
  rewrite sub_1_above by (pose proof min_signed_neg; lia).
  destruct (Z.geb_spec (counter e - 1) 0); [|lia].
  split; reflexivity.
Qed.

Lemma reply_body_empty e :
  counter e = 0 -> reply_body e = inl OutOfRange_GE.
Proof. intros Heq. unfold reply_body. rewrite Heq. reflexivity. Qed.

Lemma credit_up_ok e : edge_ok e -> counter e <> capacity e -> edge_ok (credit_up e).
Proof. unfold edge_ok, credit_up, counter, capacity. simpl. lia. Qed.

Lemma credit_down_ok e : edge_ok e -> counter e <> 0 -> edge_ok (credit_down e).
Proof. unfold edge_ok, credit_down, counter, capacity. simpl. lia. Qed.

(** ** The gate and one pass of the loop *)

Lemma IsInputReady_Forall s :
  IsInputReady s = true <-> Forall (fun e => counter e <> 0) (in_readys_ s).
Proof.
  unfold IsInputReady. rewrite forallb_forall, Forall_forall.
  split; intros H e He; specialize (H e He).
  - destruct (Z.eqb_spec (counter e) 0); [discriminate | assumption].
  - destruct (Z.eqb_spec (counter e) 0); [contradiction | reflexivity].
Qed.

Lemma CanWriteOutput_Forall s :
  CanWriteOutput s = true <->
  Forall (fun e => counter e <> capacity e) (out_buffs_ s).
Proof.
  unfold CanWriteOutput. rewrite forallb_forall, Forall_forall.
  split; intros H e He; specialize (H e He).
  - destruct (Z.eqb_spec (counter e) (capacity e)); [discriminate | assumption].
  - destruct (Z.eqb_spec (counter e) (capacity e)); [contradiction | reflexivity].
Qed.

Lemma Forall_and_in {A} (P Q : A -> Prop) l :
  Forall P l -> Forall Q l -> Forall (fun x => P x /\ Q x) l.
Proof. induction 1; inversion 1; subst; constructor; auto. Qed.

Lemma Send_gate s :
  Forall edge_ok (out_buffs_ s) -> CanWriteOutput s = true ->
  SendDataReadyToDownStream s
  = (Ret tt, set_out_buffs (map credit_up (out_buffs_ s)) s, ready_msgs s).
Proof.
  intros Hok Hg. apply CanWriteOutput_Forall in Hg.
  unfold SendDataReadyToDownStream, ready_msgs.
  rewrite (for_each_all send_body credit_up
             (fun e => EvSend (peer e) DATA_IS_READY)); [reflexivity|].
  eapply Forall_impl; [|exact (Forall_and_in _ _ _ Hok Hg)].
  intros e [H1 H2]. now apply send_body_room.
Qed.

Lemma Reply_gate s :
  Forall edge_ok (in_readys_ s) -> IsInputReady s = true ->
  ReplyCompletedToUpStream s
  = (Ret tt, set_in_readys (map credit_down (in_readys_ s)) s, reply_msgs s).
Proof.
  intros Hok Hg. apply IsInputReady_Forall in Hg.
  unfold ReplyCompletedToUpStream, reply_msgs.
  rewrite (for_each_all reply_body credit_down
             (fun e => EvSend (peer e) DATE_IS_USELESS)); [reflexivity|].
  eapply Forall_impl; [|exact (Forall_and_in _ _ _ Hok Hg)].
  intros e [H1 H2]. now apply reply_body_credit.
Qed.

Lemma Run_gate_true s :
  Run_gate s = true -> IsInputReady s = true /\ CanWriteOutput s = true.
Proof. unfold Run_gate. apply andb_prop. Qed.

Lemma Run_body_gate s :
  Inv s -> Run_gate s = true ->
  Run_body s = (Ret tt, after_pass s, EvRun :: ready_msgs s ++ reply_msgs s).
Proof.
  intros [Hin Hout] Hg. apply Run_gate_true in Hg as [Hi Ho].
  unfold Run_body, bind, emit.
  rewrite (Send_gate s Hout Ho).
  rewrite (Reply_gate (set_out_buffs _ s)) by assumption.
  reflexivity.
Qed.

Lemma after_pass_Inv s : Inv s -> Run_gate s = true -> Inv (after_pass s).
Proof.
  intros [Hin Hout] Hg. apply Run_gate_true in Hg as [Hi Ho].
  apply IsInputReady_Forall in Hi. apply CanWriteOutput_Forall in Ho.
  split; simpl; apply Forall_map.
  - eapply Forall_impl; [|exact (Forall_and_in _ _ _ Hin Hi)].
    intros e [H1 H2]. now apply credit_down_ok.
  - eapply Forall_impl; [|exact (Forall_and_in _ _ _ Hout Ho)].
    intros e [H1 H2]. now apply credit_up_ok.
Qed.

Lemma Run_unfold_pass fuel s :
  Inv s -> Run_gate s = true ->
  Run (S fuel) s =
    let '(r, s', evs) := Run fuel (after_pass s) in
    (r, s', EvRun :: ready_msgs s ++ reply_msgs s ++ evs).
Proof.
  intros Hinv Hg. simpl. rewrite Hg. unfold bind.
  rewrite (Run_body_gate s Hinv Hg).
  destruct (Run fuel (after_pass s)) as [[r s'] evs].
  simpl. rewrite <- app_assoc. reflexivity.
Qed.

Lemma Run_gate_false fuel s : Run_gate s = false -> Run fuel s = (Ret tt, s, []).
Proof. intros Hg. destruct fuel; simpl; rewrite Hg; reflexivity. Qed.

(** ** The loop *)

Ltac case_gate s :=
  let Hg := fresh "Hgate" in
  destruct (Run_gate s) eqn:Hg.

Lemma Run_keeps_Inv fuel : forall s,
  Inv s ->
  Inv (state_of (Run fuel s)) /\ ~ is_throw (result_of (Run fuel s)).
Proof.
  induction fuel as [|fuel IH]; intros s Hinv.
  - simpl. case_gate s; simpl; auto.
  - case_gate s.
    + rewrite Run_unfold_pass by assumption.
      destruct (IH (after_pass s) (after_pass_Inv s Hinv Hgate)) as [H1 H2].
      destruct (Run fuel (after_pass s)) as [[r s'] evs]. auto.
    + rewrite Run_gate_false by assumption. simpl; auto.
Qed.

Lemma work_units_app evs1 evs2 :
  work_units (evs1 ++ evs2) = (work_units evs1 + work_units evs2)%nat.
Proof. unfold work_units. now rewrite filter_app, length_app. Qed.

Lemma work_units_sends {A} (f : A -> Z) t (l : list A) :
  work_units (map (fun e => EvSend (f e) t) l) = 0%nat.
Proof. induction l; simpl; auto. Qed.

Lemma work_units_pass s evs :
  work_units (EvRun :: ready_msgs s ++ reply_msgs s ++ evs) = S (work_units evs).
Proof.
  change (EvRun :: ready_msgs s ++ reply_msgs s ++ evs)
    with ([EvRun] ++ ready_msgs s ++ reply_msgs s ++ evs).
  rewrite !work_units_app. unfold ready_msgs, reply_msgs.
  now rewrite !work_units_sends.
Qed.

(** The loop never makes more passes than any upstream edge has credits. *)
Lemma Run_passes_bounded fuel : forall s,
  Inv s ->
  Forall (fun e => Z.of_nat (work_units (events_of (Run fuel s))) <= counter e)
         (in_readys_ s).
Proof.
  induction fuel as [|fuel IH]; intros s Hinv.
  - assert (events_of (Run 0 s) = []) as -> by (simpl; case_gate s; reflexivity).
    destruct Hinv as [Hin _]. eapply Forall_impl; [|exact Hin].
    intros e [H _]. simpl. lia.
  - case_gate s.
    + rewrite Run_unfold_pass by assumption.
      specialize (IH (after_pass s) (after_pass_Inv s Hinv Hgate)).
      destruct (Run fuel (after_pass s)) as [[r s'] evs].
      unfold events_of in *. simpl snd in *.
      rewrite work_units_pass. simpl in_readys_ in IH.
      rewrite Forall_map in IH. eapply Forall_impl; [|exact IH].
      intros e He. unfold credit_down, counter in He. simpl in He.
      unfold counter. lia.
    + rewrite Run_gate_false by assumption.
      destruct Hinv as [Hin _]. eapply Forall_impl; [|exact Hin].
      intros e [H _]. simpl. lia.
Qed.

Lemma has_edge_after_pass s : has_edge s -> has_edge (after_pass s).
Proof.
  unfold has_edge, after_pass. simpl.
  intros [H|H]; [left|right]; intros Heq; apply map_eq_nil in Heq; contradiction.
Qed.

Lemma gate_needs_slack s :
  Inv s -> has_edge s -> Run_gate s = true -> 1 <= slack s.
Proof.
  intros [Hin Hout] Hedge Hg. apply Run_gate_true in Hg as [Hi Ho].
  apply IsInputReady_Forall in Hi. apply CanWriteOutput_Forall in Ho.
  unfold slack, has_edge in *.
  destruct (in_readys_ s) as [|e1 ins].
  - destruct (out_buffs_ s) as [|e2 outs].
    + destruct Hedge; congruence.
    + inversion Hout as [|? ? [Hc _] _]; inversion Ho; subst. lia.
  - inversion Hin as [|? ? [Hc _] _]; inversion Hi; subst. lia.
Qed.

Lemma slack_after_pass s :
  has_edge s -> slack (after_pass s) = slack s - 1.
Proof.
  unfold has_edge, slack, after_pass. simpl.
  destruct (in_readys_ s) as [|e1 ins]; simpl.
  - destruct (out_buffs_ s) as [|e2 outs]; simpl.
    + intros [H|H]; congruence.
    + intros _. unfold credit_up, counter, capacity. simpl. lia.
  - intros _. reflexivity.
Qed.

(** With at least one edge the loop ends: [slack s] passes are enough. *)
Lemma Run_ends_within n : forall s,
  Inv s -> has_edge s -> slack s <= Z.of_nat n ->
  result_of (Run n s) = Ret tt.
Proof.
  induction n as [|n IH]; intros s Hinv Hedge Hs.
  - simpl. case_gate s; [|reflexivity].
    pose proof (gate_needs_slack s Hinv Hedge Hgate). lia.
  - case_gate s.
    + rewrite Run_unfold_pass by assumption.
      specialize (IH (after_pass s) (after_pass_Inv s Hinv Hgate)
                     (has_edge_after_pass s Hedge)).
      rewrite slack_after_pass in IH by assumption.
      destruct (Run n (after_pass s)) as [[r s'] evs].
      apply IH. lia.
    + rewrite Run_gate_false by assumption. reflexivity.
Qed.

(** The loop returns only with the gate closed. *)
Lemma Run_returns_gate_closed fuel : forall s s' evs,
  Run fuel s = (Ret tt, s', evs) -> Run_gate s' = false.
Proof.
  induction fuel as [|n IH]; intros s s' evs E; simpl in E.
  - case_gate s; [discriminate|]. now injection E as <- _.
  - case_gate s; [|now injection E as <- _].
    unfold bind in E.
    destruct (Run_body s) as [[[[]|e|] s1] ev1]; try discriminate.
    destruct (Run n s1) as [[r2 s2] ev2] eqn:E2.
    injection E as Hr Hs _. subst r2 s2. now apply (IH s1 s' ev2).
Qed.

(** Once the loop has returned, more fuel changes nothing. *)
Lemma Run_more_fuel f : forall s f',
  result_of (Run f s) = Ret tt -> (f <= f')%nat -> Run f' s = Run f s.
Proof.
  induction f as [|f IH]; intros s f' Hr Hle.
  - simpl in *. case_gate s; [discriminate|].
    now rewrite Run_gate_false.
  - destruct f' as [|f']; [lia|].
    simpl in *. case_gate s; [|reflexivity].
    unfold bind in *.
    destruct (Run_body s) as [[[[]|e|] s1] ev1]; try reflexivity.
    specialize (IH s1 f').
    destruct (Run f s1) as [[r s2] ev2] eqn:E. cbn in Hr. subst r.
    rewrite IH; [reflexivity | reflexivity | lia].
Qed.

Lemma bind_more_fuel {A} (m : M A) (k1 k2 : M unit) s :
  (forall s1, result_of (k1 s1) = Ret tt -> k2 s1 = k1 s1) ->
  result_of ((m ;; k1) s) = Ret tt ->
  (m ;; k2) s = (m ;; k1) s.
Proof.
  intros Hk Hr. unfold bind in *.
  destruct (m s) as [[[a|e|] s1] ev1]; try reflexivity.
  specialize (Hk s1).
  destruct (k1 s1) as [[r s2] ev2]. cbn in Hr. subst r.
  rewrite Hk; reflexivity.
Qed.

Lemma Compute_more_fuel f f' msg s :
  result_of (Compute f msg s) = Ret tt -> (f <= f')%nat ->
  Compute f' msg s = Compute f msg s.
Proof.
  intros Hr Hle. unfold Compute in *.
  destruct (message_type msg); [| |reflexivity];
    (apply bind_more_fuel; [|exact Hr]);
    intros s1 H1; now apply Run_more_fuel.
Qed.

Lemma Deliver_more_fuel f f' msgs : forall s,
  result_of (Deliver f msgs s) = Ret tt -> (f <= f')%nat ->
  Deliver f' msgs s = Deliver f msgs s.
Proof.
  induction msgs as [|msg rest IH]; intros s Hr Hle; [reflexivity|].
  simpl in *. unfold bind in *.
  destruct (Compute f msg s) as [[r1 s1] ev1] eqn:E1.
  destruct r1 as [[]|e|]; try discriminate.
  rewrite (Compute_more_fuel f f' msg s) by (rewrite ?E1; auto).
  rewrite E1. specialize (IH s1).
  destruct (Deliver f rest s1) as [[r2 s2] ev2]. cbn in Hr. subst r2.
  rewrite IH; [reflexivity | reflexivity | assumption].
Qed.

(** The invariant on a state written out in full. *)
Ltac inv_concrete :=
  split; repeat constructor; unfold counter, capacity; simpl;
  try lia; apply Z.lt_le_incl; reflexivity.

(** ** Termination of the loop *)

Example run_stops_at_saturation :
  Run 10 (mkInterceptor [(1, (9, 4)); (2, (9, 3))] [(5, (2, 0))])
  = (Ret tt, mkInterceptor [(1, (9, 2)); (2, (9, 1))] [(5, (2, 2))],
     [EvRun; EvSend 5 DATA_IS_READY; EvSend 1 DATE_IS_USELESS; EvSend 2 DATE_IS_USELESS;
      EvRun; EvSend 5 DATA_IS_READY; EvSend 1 DATE_IS_USELESS; EvSend 2 DATE_IS_USELESS]).
Proof. vm_compute. reflexivity. Qed.

(** A stage without edges never gets as far as [Run] through its handler:
    the counter update of either message type finds no peer. *)
Lemma Compute_without_edges fuel msg :
  Compute fuel msg (mkInterceptor [] [])
  = match message_type msg with
    | OTHER_TYPE => (Ret tt, mkInterceptor [] [], [])
    | _ => (Throw UnknownPeer, mkInterceptor [] [], [])
    end.
Proof. unfold Compute. destruct (message_type msg); reflexivity. Qed.

(** C10.  On a stage with no upstream and no downstream edge both gate
    predicates are true, a pass of the loop leaves the state as it was, and
    [Run] does not return: whatever the number of passes allowed, the loop
    has made them all and is still running. *)
Theorem run_without_edges_diverges :
  let s := mkInterceptor [] [] in
  PrepareDeps [] [] = s /\
  IsInputReady s = true /\ CanWriteOutput s = true /\
  Run_body s = (Ret tt, s, [EvRun]) /\
  forall fuel, Run fuel s = (OutOfFuel, s, repeat EvRun fuel).
Proof.
  intros s. repeat split.
  induction fuel as [|fuel IH]; [reflexivity|].
  change (Run (S fuel) s) with ((Run_body ;; Run fuel) s).
  unfold bind. change (Run_body s) with (Ret tt, s, [EvRun]).
  cbv iota beta. rewrite IH. reflexivity.
Qed.

(** ** Failures *)

(** C7.  A [DATE_IS_USELESS] from a configured downstream peer whose used
    count is 0 aborts the handler with [CreditUnderflow]; the interceptor
    is left exactly as it was and nothing is sent. *)
Theorem data_consumed_underflow (s : Interceptor) (down_id mx : Z) (fuel : nat) :
  find down_id (out_buffs_ s) = Some (mx, 0) ->
  Compute fuel (mkMsg down_id DATE_IS_USELESS) s = (Throw CreditUnderflow, s, []).
Proof.
  intros Hf. unfold Compute, bind. simpl.
  rewrite (DecreaseBuff_found down_id s mx 0 Hf). reflexivity.
Qed.

Lemma data_consumed_underflow_witness :
  let s := mkInterceptor [(1, (3, 2))] [(5, (2, 1)); (6, (2, 0))] in
  Compute 4 (mkMsg 6 DATE_IS_USELESS) s = (Throw CreditUnderflow, s, []).
Proof.
  intros s. apply (data_consumed_underflow s 6 2 4). reflexivity.
Defined.

(** C9.  When [SendDataReadyToDownStream] aborts with [CreditOverflow] on a
    downstream edge, the edges visited before it keep their raised used
    counts and the [DATA_IS_READY] messages sent to them stay sent; when
    [ReplyCompletedToUpStream] aborts with [CreditUnderflow] on an upstream
    edge, the edges visited before it keep their lowered ready counts and
    the [DATE_IS_USELESS] messages sent to them stay sent. *)
Theorem credit_propagation_not_atomic (s : Interceptor) (pre : edge_map)
    (e : edge) (post : edge_map) :
  (out_buffs_ s = pre ++ e :: post ->
   Forall (fun p => Int64.add (counter p) 1 <= capacity p) pre ->
   capacity e < Int64.add (counter e) 1 ->
   SendDataReadyToDownStream s
   = (Throw CreditOverflow,
      set_out_buffs
        (map (fun p => stored (Int64.add (counter p) 1) p) pre ++ e :: post) s,
      map (fun p => EvSend (peer p) DATA_IS_READY) pre)) /\
  (in_readys_ s = pre ++ e :: post ->
   Forall (fun p => 0 <= Int64.sub (counter p) 1) pre ->
   Int64.sub (counter e) 1 < 0 ->
   ReplyCompletedToUpStream s
   = (Throw CreditUnderflow,
      set_in_readys
        (map (fun p => stored (Int64.sub (counter p) 1) p) pre ++ e :: post) s,
      map (fun p => EvSend (peer p) DATE_IS_USELESS) pre)).
Proof.
  split; intros Hs Hpre He.
  - unfold SendDataReadyToDownStream. rewrite Hs.
    rewrite (for_each_abort send_body
               (fun p => stored (Int64.add (counter p) 1) p)
               (fun p => EvSend (peer p) DATA_IS_READY) pre e post OutOfRange_LE).
    + reflexivity.
    + eapply Forall_impl; [|exact Hpre]. intros p Hp. cbv beta in Hp.
      unfold send_body.
      destruct (Z.leb_spec (Int64.add (counter p) 1) (capacity p)); [|lia].
      split; reflexivity.
    + unfold send_body.
      destruct (Z.leb_spec (Int64.add (counter e) 1) (capacity e)); [lia|].
      reflexivity.
  - unfold ReplyCompletedToUpStream. rewrite Hs.
    rewrite (for_each_abort reply_body
               (fun p => stored (Int64.sub (counter p) 1) p)
               (fun p => EvSend (peer p) DATE_IS_USELESS) pre e post OutOfRange_GE).
    + reflexivity.
    + eapply Forall_impl; [|exact Hpre]. intros p Hp. cbv beta in Hp.
      unfold reply_body.
      destruct (Z.geb_spec (Int64.sub (counter p) 1) 0); [|lia].
      split; reflexivity.
    + unfold reply_body.
      destruct (Z.geb_spec (Int64.sub (counter e) 1) 0); [lia|].
      reflexivity.
Qed.

Lemma credit_propagation_not_atomic_witness :
  SendDataReadyToDownStream
    (mkInterceptor [(1, (3, 1))] [(5, (2, 0)); (6, (2, 2)); (7, (2, 0))])
  = (Throw CreditOverflow,
     mkInterceptor [(1, (3, 1))] [(5, (2, 1)); (6, (2, 2)); (7, (2, 0))],
     [EvSend 5 DATA_IS_READY]) /\
  ReplyCompletedToUpStream
    (mkInterceptor [(1, (3, 1)); (2, (3, 0)); (3, (3, 1))] [(5, (2, 0))])
  = (Throw CreditUnderflow,
     mkInterceptor [(1, (3, 0)); (2, (3, 0)); (3, (3, 1))] [(5, (2, 0))],
     [EvSend 1 DATE_IS_USELESS]).
Proof.
  split.
  - apply (proj1 (credit_propagation_not_atomic
                    (mkInterceptor [(1, (3, 1))] [(5, (2, 0)); (6, (2, 2)); (7, (2, 0))])
                    [(5, (2, 0))] (6, (2, 2)) [(7, (2, 0))])).
    + reflexivity.
    + repeat constructor. vm_compute. discriminate.
    + vm_compute. reflexivity.
  - apply (proj2 (credit_propagation_not_atomic
                    (mkInterceptor [(1, (3, 1)); (2, (3, 0)); (3, (3, 1))] [(5, (2, 0))])
                    [(1, (3, 1))] (2, (3, 0)) [(3, (3, 1))])).
    + reflexivity.
    + repeat constructor. vm_compute. discriminate.
    + vm_compute. reflexivity.
Defined.

(** ** The worked example *)

(** C4.  A stage with one upstream peer [u] of capacity 3 and one
    downstream peer [d] of capacity 2, all counters 0, receives two
    [DATA_IS_READY] from [u]: the handler returns, having made exactly 2
    passes through the loop, sent exactly 2 [DATA_IS_READY] to [d] and
    exactly 2 [DATE_IS_USELESS] to [u]; the ready count of [u] is 0 and the
    used count of [d] is 2. *)
Theorem two_ready_messages (u d : Z) (fuel : nat) :
  let s0 := PrepareDeps_sized 3 2 [u] [d] in
  let run := Deliver (S fuel) [mkMsg u DATA_IS_READY; mkMsg u DATA_IS_READY] s0 in
  s0 = mkInterceptor [(u, (3, 0))] [(d, (2, 0))] /\
  result_of run = Ret tt /\
  events_of run
  = [EvRun; EvSend d DATA_IS_READY; EvSend u DATE_IS_USELESS;
     EvRun; EvSend d DATA_IS_READY; EvSend u DATE_IS_USELESS] /\
  work_units (events_of run) = 2%nat /\
  sent_to d DATA_IS_READY (events_of run) = 2%nat /\
  sent_to u DATE_IS_USELESS (events_of run) = 2%nat /\
  state_of run = mkInterceptor [(u, (3, 0))] [(d, (2, 2))].
Proof.
  intros s0 run.
  set (pass := [EvRun; EvSend d DATA_IS_READY; EvSend u DATE_IS_USELESS]).
  assert (Hmsg : forall c, 0 <= c < 2 ->
             Compute (S fuel) (mkMsg u DATA_IS_READY)
               (mkInterceptor [(u, (3, 0))] [(d, (2, c))])
             = (Ret tt, mkInterceptor [(u, (3, 0))] [(d, (2, c + 1))], pass)).
  { intros c Hc. unfold Compute; cbn [message_type src_id]. unfold bind.
    rewrite (IncreaseReady_found u _ 3 0) by (cbn; now rewrite Z.eqb_refl).
    change (Int64.add 0 1) with 1. change (1 <=? 3) with true. cbv iota.
    cbn [in_readys_ out_buffs_ assign_second set_in_readys]. rewrite Z.eqb_refl.
    assert (Hgate : Run_gate (mkInterceptor [(u, (3, 1))] [(d, (2, c))]) = true).
    { unfold Run_gate, IsInputReady, CanWriteOutput, counter, capacity. simpl.
      destruct (Z.eqb_spec c 2); [lia | reflexivity]. }
    rewrite Run_unfold_pass;
      [| split; repeat constructor; unfold counter, capacity; simpl;
         try lia; apply Z.lt_le_incl; reflexivity
       | exact Hgate].
    rewrite Run_gate_false by reflexivity. reflexivity. }
  assert (Hrun : run
    = (Ret tt, mkInterceptor [(u, (3, 0))] [(d, (2, 2))], pass ++ pass)).
  { subst run s0. unfold PrepareDeps_sized. cbn [fold_left emplace].
    unfold Deliver, bind.
    rewrite (Hmsg 0) by lia. change (0 + 1) with 1.
    rewrite (Hmsg 1) by lia. reflexivity. }
  rewrite Hrun. unfold result_of, events_of, state_of, work_units, sent_to, pass.
  simpl. rewrite !Z.eqb_refl. simpl.
  repeat split; rewrite ?andb_false_r; reflexivity.
Qed.

(** ** [IncreaseReady] case by case *)

Lemma Inv_find_in s id mx cur :
  Inv s -> find id (in_readys_ s) = Some (mx, cur) -> edge_ok (id, (mx, cur)).
Proof.
  intros [Hin _] Hf. apply find_In in Hf.
  rewrite Forall_forall in Hin. now apply Hin.
Qed.

Lemma Inv_find_out s id mx cur :
  Inv s -> find id (out_buffs_ s) = Some (mx, cur) -> edge_ok (id, (mx, cur)).
Proof.
  intros [_ Hout] Hf. apply find_In in Hf.
  rewrite Forall_forall in Hout. now apply Hout.
Qed.


(** ** Messages that respect the credit contract *)

Lemma assign_second_nonempty id c m mx cur :
  find id m = Some (mx, cur) -> assign_second id c m <> [].
Proof.
  destruct m as [|[k [mx' cur']] rest]; simpl; [discriminate|].
  intros _. destruct (k =? id); discriminate.
Qed.

(** An allowed [DATA_IS_READY] is taken: the ready count goes up by 1. *)
Lemma IncreaseReady_allowed s up_id mx cur :
  Inv s -> find up_id (in_readys_ s) = Some (mx, cur) -> cur <> mx ->
  let s1 := set_in_readys (assign_second up_id (cur + 1) (in_readys_ s)) s in
  IncreaseReady up_id s = (Ret tt, s1, []) /\ Inv s1 /\ has_edge s1.
Proof.
  intros Hinv Hf Hne s1.
  destruct (Inv_find_in s up_id mx cur Hinv Hf) as [Hc Hm].
  unfold counter, capacity in Hc, Hm; simpl in Hc, Hm.
  rewrite (IncreaseReady_found up_id s mx cur Hf).
  rewrite add_1_below by (pose proof min_signed_neg; lia).
  destruct (Z.leb_spec (cur + 1) mx); [|lia].
  split; [reflexivity|]. split.
  - destruct Hinv as [Hin Hout]. split; [|exact Hout].
    apply (assign_second_Forall edge_ok up_id mx cur); try assumption.
    unfold edge_ok, counter, capacity; simpl. lia.
  - left. now apply (assign_second_nonempty up_id _ _ mx cur).
Qed.

(** An allowed [DATE_IS_USELESS] is taken: the used count goes down by 1. *)
Lemma DecreaseBuff_allowed s down_id mx cur :
  Inv s -> find down_id (out_buffs_ s) = Some (mx, cur) -> cur <> 0 ->
  let s1 := set_out_buffs (assign_second down_id (cur - 1) (out_buffs_ s)) s in
  DecreaseBuff down_id s = (Ret tt, s1, []) /\ Inv s1 /\ has_edge s1.
Proof.
  intros Hinv Hf Hne s1.
  destruct (Inv_find_out s down_id mx cur Hinv Hf) as [Hc Hm].
  unfold counter, capacity in Hc, Hm; simpl in Hc, Hm.
  rewrite (DecreaseBuff_found down_id s mx cur Hf).
  rewrite sub_1_above by (pose proof min_signed_neg; lia).
  destruct (Z.geb_spec (cur - 1) 0); [|lia].
  split; [reflexivity|]. split.
  - destruct Hinv as [Hin Hout]. split; [exact Hin|].
    apply (assign_second_Forall edge_ok down_id mx cur); try assumption.
    unfold edge_ok, counter, capacity; simpl. lia.
  - right. now apply (assign_second_nonempty down_id _ _ mx cur).
Qed.

(** After an allowed message the handler is in the loop of [Run] on a stage
    that satisfies the invariant and has a peer. *)
Lemma Compute_allowed_enters_Run s msg :
  Inv s -> allowed s msg ->
  message_type msg = OTHER_TYPE \/
  exists s1, Inv s1 /\ has_edge s1 /\ forall fuel, Compute fuel msg s = Run fuel s1.
Proof.
  intros Hinv Hal. unfold allowed in Hal. unfold Compute.
  destruct (message_type msg); [| |now left]; right;
    destruct Hal as (mx & cur & Hf & Hne).
  - destruct (IncreaseReady_allowed s _ mx cur Hinv Hf Hne) as (E & Hi & He).
    eexists; split; [exact Hi|split; [exact He|]].
    intros fuel. unfold bind. rewrite E.
    destruct (Run fuel _) as [[r s'] evs]. reflexivity.
  - destruct (DecreaseBuff_allowed s _ mx cur Hinv Hf Hne) as (E & Hi & He).
    eexists; split; [exact Hi|split; [exact He|]].
    intros fuel. unfold bind. rewrite E.
    destruct (Run fuel _) as [[r s'] evs]. reflexivity.
Qed.

Lemma Compute_allowed_returns s msg :
  Inv s -> allowed s msg ->
  exists fuel s' evs, Compute fuel msg s = (Ret tt, s', evs) /\ Inv s'.
Proof.
  intros Hinv Hal.
  destruct (Compute_allowed_enters_Run s msg Hinv Hal) as [Ho|(s1 & Hi & He & Hc)].
  - exists 0%nat, s, []. unfold Compute. rewrite Ho. split; [reflexivity|assumption].
  - pose proof (Run_ends_within (Z.to_nat (slack s1)) s1 Hi He ltac:(lia)) as Hend.
    pose proof (proj1 (Run_keeps_Inv (Z.to_nat (slack s1)) s1 Hi)) as Hk.
    exists (Z.to_nat (slack s1)). rewrite Hc.
    destruct (Run _ s1) as [[r s'] evs]. cbn in Hend, Hk. subst r.
    exists s', evs. split; [reflexivity|assumption].
Qed.

Lemma Compute_allowed_no_throw s msg fuel :
  Inv s -> allowed s msg -> ~ is_throw (result_of (Compute fuel msg s)).
Proof.
  intros Hinv Hal.
  destruct (Compute_allowed_enters_Run s msg Hinv Hal) as [Ho|(s1 & Hi & He & Hc)].
  - unfold Compute. rewrite Ho. simpl. tauto.
  - rewrite Hc. apply Run_keeps_Inv. assumption.
Qed.

(** The handler returns in one way only. *)
Lemma Compute_returns_once f1 f2 msg s s1 s2 ev1 ev2 :
  Compute f1 msg s = (Ret tt, s1, ev1) ->
  Compute f2 msg s = (Ret tt, s2, ev2) ->
  s1 = s2 /\ ev1 = ev2.
Proof.
  intros E1 E2.
  pose proof (Compute_more_fuel f1 (Nat.max f1 f2) msg s) as H1.
  pose proof (Compute_more_fuel f2 (Nat.max f1 f2) msg s) as H2.
  rewrite E1 in H1. rewrite E2 in H2.
  rewrite H1 in H2 by (reflexivity || lia).
  specialize (H2 eq_refl ltac:(lia)). now injection H2 as -> ->.
Qed.

(** C1.  Started on a stage that satisfies the invariant, the handler fed
    with a message sequence that respects the credit contract handles the
    whole sequence and returns, and at no point aborts with [UnknownPeer],
    [CreditOverflow] or [CreditUnderflow]. *)
Theorem contract_excludes_errors (s : Interceptor) (msgs : list InterceptorMessage) :
  Inv s -> Respects s msgs ->
  (exists fuel s' evs, Deliver fuel msgs s = (Ret tt, s', evs) /\ Inv s') /\
  (forall fuel, ~ is_throw (result_of (Deliver fuel msgs s))).
Proof.
  intros Hinv Hres. revert Hinv.
  induction Hres as [s|s msg rest Hal Hrest IH]; intros Hinv.
  - split; [|simpl; tauto].
    exists 0%nat, s, []. split; [reflexivity|assumption].
  - destruct (Compute_allowed_returns s msg Hinv Hal) as (f1 & s1 & ev1 & E1 & Hi1).
    destruct (IH f1 s1 ev1 E1 Hi1) as [(f2 & s2 & ev2 & E2 & Hi2) Hno].
    split.
    + exists (Nat.max f1 f2), s2, (ev1 ++ ev2). split; [|assumption].
      simpl. unfold bind.
      rewrite (Compute_more_fuel f1 (Nat.max f1 f2) msg s)
        by (rewrite ?E1; reflexivity || lia).
      rewrite E1.
      rewrite (Deliver_more_fuel f2 (Nat.max f1 f2) rest s1)
        by (rewrite ?E2; reflexivity || lia).
      rewrite E2. reflexivity.
    + intros fuel. simpl. unfold bind.
      pose proof (Compute_allowed_no_throw s msg fuel Hinv Hal) as Hc.
      destruct (Compute fuel msg s) as [[[[]|e|] s1'] ev1'] eqn:E; cbn in Hc.
      * destruct (Compute_returns_once _ _ _ _ _ _ _ _ E E1) as [-> ->].
        specialize (Hno fuel).
        destruct (Deliver fuel rest s1) as [[r s3] ev3]. exact Hno.
      * contradiction.
      * simpl. tauto.
Qed.

Lemma Respects_step s msg rest fuel s1 ev1 :
  allowed s msg ->
  Compute fuel msg s = (Ret tt, s1, ev1) ->
  Respects s1 rest ->
  Respects s (msg :: rest).
Proof.
  intros Hal E Hrest. constructor; [assumption|].
  intros fuel' s' evs E'.
  destruct (Compute_returns_once _ _ _ _ _ _ _ _ E E') as [<- _]. assumption.
Qed.

(** ** The initial state *)

Lemma emplace_Forall (P : edge -> Prop) id v m :
  P (id, v) -> Forall P m -> Forall P (emplace id v m).
Proof.
  intros Hp. induction 1 as [|[k w] rest He Hrest IH]; simpl.
  - repeat constructor. assumption.
  - destruct (id <? k); [repeat constructor; assumption|].
    destruct (id =? k); constructor; assumption.
Qed.

Lemma emplace_all_Forall (P : edge -> Prop) v ids : forall m,
  (forall id, P (id, v)) -> Forall P m ->
  Forall P (fold_left (fun m id => emplace id v m) ids m).
Proof.
  induction ids as [|id ids IH]; intros m Hp Hm; simpl; [assumption|].
  apply IH; [assumption|]. now apply emplace_Forall.
Qed.

Lemma PrepareDeps_sized_Inv in_buff_size out_buff_size upstream downstream :
  0 <= in_buff_size <= Int64.max_signed ->
  0 <= out_buff_size <= Int64.max_signed ->
  Inv (PrepareDeps_sized in_buff_size out_buff_size upstream downstream).
Proof.
  intros Hi Ho. split; simpl; apply emplace_all_Forall;
    try apply Forall_nil;
    intros id; unfold edge_ok, counter, capacity; simpl; lia.
Qed.

Lemma PrepareDeps_Inv upstream downstream : Inv (PrepareDeps upstream downstream).
Proof.
  apply PrepareDeps_sized_Inv; pose proof max_signed_pos; lia.
Qed.

Lemma PrepareDeps_sized_zero in_buff_size out_buff_size upstream downstream :
  Forall (fun e => counter e <= 0)
    (in_readys_ (PrepareDeps_sized in_buff_size out_buff_size upstream downstream)).
Proof.
  simpl. apply emplace_all_Forall; [|apply Forall_nil].
  intros id. unfold counter; simpl. lia.
Qed.

Lemma contract_excludes_errors_witness :
  let s := PrepareDeps [1] [5] in
  let msgs := [mkMsg 1 DATA_IS_READY; mkMsg 1 DATA_IS_READY;
               mkMsg 1 DATA_IS_READY; mkMsg 5 DATE_IS_USELESS] in
  Inv s /\ Respects s msgs /\
  (exists fuel s' evs, Deliver fuel msgs s = (Ret tt, s', evs) /\ Inv s') /\
  (forall fuel, ~ is_throw (result_of (Deliver fuel msgs s))).
Proof.
  intros s msgs.
  assert (Hinv : Inv s) by apply PrepareDeps_Inv.
  assert (Hres : Respects s msgs).
  { eapply (Respects_step _ _ _ 3%nat).
    { simpl. eexists _, _. split; [reflexivity|discriminate]. }
    { reflexivity. }
    eapply (Respects_step _ _ _ 3%nat).
    { simpl. eexists _, _. split; [reflexivity|discriminate]. }
    { reflexivity. }
    eapply (Respects_step _ _ _ 3%nat).
    { simpl. eexists _, _. split; [reflexivity|discriminate]. }
    { reflexivity. }
    eapply (Respects_step _ _ _ 3%nat).
    { simpl. eexists _, _. split; [reflexivity|discriminate]. }
    { reflexivity. }
    constructor. }
  split; [exact Hinv|]. split; [exact Hres|].
  exact (contract_excludes_errors s msgs Hinv Hres).
Defined.

(** ** The invariant along a run *)

Lemma bind_state {A} (m : M A) (k : M unit) s :
  (exists a, result_of (m s) = Ret a /\
             state_of ((m ;; k) s) = state_of (k (state_of (m s)))) \/
  state_of ((m ;; k) s) = state_of (m s).
Proof.
  unfold bind, result_of, state_of.
  destruct (m s) as [[[a|e|] s1] ev1]; simpl; [left|right|right]; try reflexivity.
  exists a. split; [reflexivity|].
  destruct (k s1) as [[r s2] ev2]. reflexivity.
Qed.

Lemma IncreaseReady_keeps_Inv s up_id n :
  Inv s -> n < Int64.max_signed ->
  Forall (fun e => counter e <= n) (in_readys_ s) ->
  Inv (state_of (IncreaseReady up_id s)) /\
  Forall (fun e => counter e <= n + 1) (in_readys_ (state_of (IncreaseReady up_id s))).
Proof.
  intros Hinv Hn Hb.
  assert (Hb' : Forall (fun e => counter e <= n + 1) (in_readys_ s)).
  { eapply Forall_impl; [|exact Hb]. intros e He. simpl in He. lia. }
  destruct (find up_id (in_readys_ s)) as [[mx cur]|] eqn:Hf.
  - rewrite (IncreaseReady_found up_id s mx cur Hf).
    destruct (Inv_find_in s up_id mx cur Hinv Hf) as [Hc Hm].
    unfold counter, capacity in Hc, Hm; simpl in Hc, Hm.
    assert (Hcur : cur <= n).
    { apply find_In in Hf. rewrite Forall_forall in Hb.
      exact (Hb _ Hf). }
    rewrite add_1_below by (pose proof min_signed_neg; lia).
    destruct (Z.leb_spec (cur + 1) mx); [|split; assumption].
    unfold state_of; simpl. destruct Hinv as [Hin Hout]. split; [split|].
    + apply (assign_second_Forall edge_ok up_id mx cur); try assumption.
      unfold edge_ok, counter, capacity; simpl. lia.
    + exact Hout.
    + apply (assign_second_Forall _ up_id mx cur); try assumption.
      unfold counter; simpl. lia.
  - rewrite (IncreaseReady_unknown up_id s Hf). split; assumption.
Qed.

Lemma DecreaseBuff_keeps_Inv s down_id :
  Inv s ->
  Inv (state_of (DecreaseBuff down_id s)) /\
  in_readys_ (state_of (DecreaseBuff down_id s)) = in_readys_ s.
Proof.
  intros Hinv.
  destruct (find down_id (out_buffs_ s)) as [[mx cur]|] eqn:Hf.
  - rewrite (DecreaseBuff_found down_id s mx cur Hf).
    destruct (Inv_find_out s down_id mx cur Hinv Hf) as [Hc Hm].
    unfold counter, capacity in Hc, Hm; simpl in Hc, Hm.
    rewrite sub_1_above by (pose proof min_signed_neg; lia).
    destruct (Z.geb_spec (cur - 1) 0); [|split; [assumption|reflexivity]].
    unfold state_of; simpl. split; [|reflexivity].
    destruct Hinv as [Hin Hout]. split; [exact Hin|].
    apply (assign_second_Forall edge_ok down_id mx cur); try assumption.
    unfold edge_ok, counter, capacity; simpl. lia.
  - rewrite (DecreaseBuff_unknown down_id s Hf). split; [assumption|reflexivity].
Qed.



(** The loop only lowers ready counts. *)
Lemma Run_ready_not_raised fuel n : forall s,
  Inv s ->
  Forall (fun e => counter e <= n) (in_readys_ s) ->
  Forall (fun e => counter e <= n) (in_readys_ (state_of (Run fuel s))).
Proof.
  induction fuel as [|fuel IH]; intros s Hinv Hb.
  - simpl. case_gate s; assumption.
  - case_gate s.
    + rewrite Run_unfold_pass by assumption.
      specialize (IH (after_pass s) (after_pass_Inv s Hinv Hgate)).
      destruct (Run fuel (after_pass s)) as [[r s'] evs].
      apply IH. simpl. apply Forall_map.
      eapply Forall_impl; [|exact Hb].
      intros e He. unfold credit_down, counter in *. simpl in *. lia.
    + rewrite Run_gate_false by assumption. assumption.
Qed.

(** One message keeps the invariant as long as no ready count can reach
    the largest [int64_t]. *)
Lemma Compute_keeps_Inv fuel msg s n :
  Inv s -> n < Int64.max_signed ->
  Forall (fun e => counter e <= n) (in_readys_ s) ->
  Inv (state_of (Compute fuel msg s)) /\
  Forall (fun e => counter e <= n + 1) (in_readys_ (state_of (Compute fuel msg s))).
Proof.
  intros Hinv Hn Hb. unfold Compute.
  destruct (message_type msg).
  - destruct (IncreaseReady_keeps_Inv s (src_id msg) n Hinv Hn Hb) as [Hi Hr].
    destruct (bind_state (IncreaseReady (src_id msg)) (Run fuel) s)
      as [(a & _ & ->)| ->]; [|split; assumption].
    split; [now apply Run_keeps_Inv | now apply Run_ready_not_raised].
  - destruct (DecreaseBuff_keeps_Inv s (src_id msg) Hinv) as [Hi He].
    assert (Hb' : Forall (fun e => counter e <= n + 1)
                    (in_readys_ (state_of (DecreaseBuff (src_id msg) s)))).
    { rewrite He. eapply Forall_impl; [|exact Hb].
      intros e H. simpl in H. lia. }
    destruct (bind_state (DecreaseBuff (src_id msg)) (Run fuel) s)
      as [(a & _ & ->)| ->]; [|split; assumption].
    split; [now apply Run_keeps_Inv | now apply Run_ready_not_raised].
  - split; [assumption|].
    eapply Forall_impl; [|exact Hb]. intros e H. simpl in H.
    unfold state_of; simpl. lia.
Qed.




(** * Further properties of the interceptor *)

(** ** What the handler never touches *)

Lemma layout_assign_second id c m : layout (assign_second id c m) = layout m.
Proof.
  induction m as [|[k [mx cur]] rest IH]; simpl; [reflexivity|].
  destruct (k =? id); simpl; [reflexivity|]. now rewrite IH.
Qed.

Lemma layout_for_each body m : layout (snd (fst (for_each body m))) = layout m.
Proof.
  induction m as [|e rest IH]; simpl; [reflexivity|].
  destruct (body e) as [err|[c ev]]; simpl; [reflexivity|].
  destruct (for_each body rest) as [[r rest'] evs]; simpl in *.
  now rewrite IH.
Qed.

Lemma layout_peers m : map peer m = map fst (layout m).
Proof. unfold layout. rewrite map_map. reflexivity. Qed.

Lemma same_layout_refl s : same_layout s s.
Proof. split; reflexivity. Qed.

Lemma same_layout_trans s1 s2 s3 :
  same_layout s1 s2 -> same_layout s2 s3 -> same_layout s1 s3.
Proof. intros [H1 H2] [H3 H4]. split; congruence. Qed.

Lemma layout_IncreaseReady up_id s :
  same_layout s (state_of (IncreaseReady up_id s)).
Proof.
  unfold same_layout.
  destruct (find up_id (in_readys_ s)) as [[mx cur]|] eqn:Hf.
  - rewrite (IncreaseReady_found up_id s mx cur Hf).
    destruct (Int64.add cur 1 <=? mx); unfold state_of; simpl;
      [rewrite layout_assign_second|]; split; reflexivity.
  - rewrite (IncreaseReady_unknown up_id s Hf). split; reflexivity.
Qed.

Lemma layout_DecreaseBuff down_id s :
  same_layout s (state_of (DecreaseBuff down_id s)).
Proof.
  unfold same_layout.
  destruct (find down_id (out_buffs_ s)) as [[mx cur]|] eqn:Hf.
  - rewrite (DecreaseBuff_found down_id s mx cur Hf).
    destruct (Int64.sub cur 1 >=? 0); unfold state_of; simpl;
      [rewrite layout_assign_second|]; split; reflexivity.
  - rewrite (DecreaseBuff_unknown down_id s Hf). split; reflexivity.
Qed.

Lemma layout_Send s :
  same_layout s (state_of (SendDataReadyToDownStream s)).
Proof.
  unfold same_layout.
  unfold SendDataReadyToDownStream.
  pose proof (layout_for_each send_body (out_buffs_ s)) as H.
  destruct (for_each send_body (out_buffs_ s)) as [[r m] evs].
  unfold state_of; simpl in *. split; [reflexivity|exact H].
Qed.

Lemma layout_Reply s :
  same_layout s (state_of (ReplyCompletedToUpStream s)).
Proof.
  unfold same_layout.
  unfold ReplyCompletedToUpStream.
  pose proof (layout_for_each reply_body (in_readys_ s)) as H.
  destruct (for_each reply_body (in_readys_ s)) as [[r m] evs].
  unfold state_of; simpl in *. split; [exact H|reflexivity].
Qed.

(** Sequencing keeps what both parts keep. *)
Lemma bind_keeps {A} (P : Interceptor -> Interceptor -> Prop) (m : M A) (k : M unit) s :
  (forall s1 s2 s3, P s1 s2 -> P s2 s3 -> P s1 s3) ->
  P s (state_of (m s)) ->
  (forall s1, P s1 (state_of (k s1))) ->
  P s (state_of ((m ;; k) s)).
Proof.
  intros Htrans Hm Hk.
  destruct (bind_state m k s) as [(a & _ & ->)| ->]; [|exact Hm].
  eapply Htrans; [exact Hm | apply Hk].
Qed.

Lemma layout_Run_body s : same_layout s (state_of (Run_body s)).
Proof.
  unfold Run_body.
  apply (bind_keeps same_layout); [exact same_layout_trans|apply same_layout_refl|].
  intros s1.
  apply (bind_keeps same_layout); [exact same_layout_trans|apply layout_Send|].
  apply layout_Reply.
Qed.

Lemma layout_Run fuel : forall s, same_layout s (state_of (Run fuel s)).
Proof.
  induction fuel as [|fuel IH]; intros s; simpl.
  - case_gate s; apply same_layout_refl.
  - case_gate s; [|apply same_layout_refl].
    apply (bind_keeps same_layout);
      [exact same_layout_trans | apply layout_Run_body | exact IH].
Qed.

(** X4.  Whatever the state, the message and the outcome, the handler
    leaves the peers of both maps, their order and their capacities as
    they were: only counters are ever written. *)
Theorem handler_keeps_layout (fuel : nat) (msg : InterceptorMessage) (s : Interceptor) :
  layout (in_readys_ (state_of (Compute fuel msg s))) = layout (in_readys_ s) /\
  layout (out_buffs_ (state_of (Compute fuel msg s))) = layout (out_buffs_ s).
Proof.
  change (same_layout s (state_of (Compute fuel msg s))).
  unfold Compute. destruct (message_type msg).
  - apply (bind_keeps same_layout);
      [exact same_layout_trans | apply layout_IncreaseReady | apply layout_Run].
  - apply (bind_keeps same_layout);
      [exact same_layout_trans | apply layout_DecreaseBuff | apply layout_Run].
  - apply same_layout_refl.
Qed.

(** ** What the handler sends *)

Lemma for_each_events (Q : event -> Prop) body m :
  (forall e c ev, In e m -> body e = inr (c, ev) -> Q ev) ->
  Forall Q (snd (for_each body m)).
Proof.
  induction m as [|e rest IH]; intros Hq; simpl; [constructor|].
  destruct (body e) as [err|[c ev]] eqn:Hb; simpl; [constructor|].
  assert (Hrest : Forall Q (snd (for_each body rest))).
  { apply IH. intros e' c' ev' Hin. apply Hq. now right. }
  destruct (for_each body rest) as [[r rest'] evs]; simpl in *.
  constructor; [|exact Hrest]. apply (Hq e c ev); [now left|exact Hb].
Qed.

Lemma bind_events {A} (Q : event -> Prop) (m : M A) (k : M unit) s :
  Forall Q (events_of (m s)) ->
  Forall Q (events_of (k (state_of (m s)))) ->
  Forall Q (events_of ((m ;; k) s)).
Proof.
  unfold bind, events_of, state_of.
  destruct (m s) as [[[a|e|] s1] ev1]; simpl; auto.
  destruct (k s1) as [[r s2] ev2]; simpl. intros H1 H2.
  apply Forall_app. split; assumption.
Qed.

Lemma expected_event_layout s s' ev :
  same_layout s s' -> expected_event s ev -> expected_event s' ev.
Proof.
  intros [Hi Ho]. unfold expected_event. rewrite !layout_peers, Hi, Ho. tauto.
Qed.

Lemma Send_events s :
  Forall (expected_event s) (events_of (SendDataReadyToDownStream s)).
Proof.
  unfold SendDataReadyToDownStream.
  pose proof (for_each_events (expected_event s) send_body (out_buffs_ s)) as H.
  destruct (for_each send_body (out_buffs_ s)) as [[r m] evs].
  unfold events_of; simpl in *. apply H.
  intros e c ev Hin Hb. unfold send_body in Hb.
  destruct (Int64.add (counter e) 1 <=? capacity e); [|discriminate].
  injection Hb as _ <-. simpl. now apply in_map.
Qed.

Lemma Reply_events s :
  Forall (expected_event s) (events_of (ReplyCompletedToUpStream s)).
Proof.
  unfold ReplyCompletedToUpStream.
  pose proof (for_each_events (expected_event s) reply_body (in_readys_ s)) as H.
  destruct (for_each reply_body (in_readys_ s)) as [[r m] evs].
  unfold events_of; simpl in *. apply H.
  intros e c ev Hin Hb. unfold reply_body in Hb.
  destruct (Int64.sub (counter e) 1 >=? 0); [|discriminate].
  injection Hb as _ <-. simpl. now apply in_map.
Qed.

Lemma Forall_expected_layout s s' evs :
  same_layout s' s ->
  Forall (expected_event s') evs -> Forall (expected_event s) evs.
Proof.
  intros Hl H. eapply Forall_impl; [|exact H].
  intros ev. now apply expected_event_layout.
Qed.

Lemma same_layout_sym s s' : same_layout s s' -> same_layout s' s.
Proof. intros [H1 H2]. split; congruence. Qed.

Lemma Run_body_events s :
  Forall (expected_event s) (events_of (Run_body s)).
Proof.
  unfold Run_body.
  apply bind_events; [repeat constructor|].
  apply bind_events; [apply Send_events|].
  apply (Forall_expected_layout _ (state_of (SendDataReadyToDownStream s))).
  - apply same_layout_sym, layout_Send.
  - apply Reply_events.
Qed.

Lemma Run_events fuel : forall s,
  Forall (expected_event s) (events_of (Run fuel s)).
Proof.
  induction fuel as [|fuel IH]; intros s; simpl.
  - case_gate s; constructor.
  - case_gate s; [|constructor].
    apply bind_events; [apply Run_body_events|].
    apply (Forall_expected_layout _ (state_of (Run_body s))).
    + apply same_layout_sym, layout_Run_body.
    + apply IH.
Qed.

(** X5.  Whatever the state and the message, the handler sends
    [DATA_IS_READY] only to peers of [out_buffs_] and [DATE_IS_USELESS]
    only to peers of [in_readys_], and sends no other message. *)
Theorem handler_sends_to_peers_only (fuel : nat) (msg : InterceptorMessage)
    (s : Interceptor) :
  Forall (expected_event s) (events_of (Compute fuel msg s)).
Proof.
  unfold Compute. destruct (message_type msg); [| |constructor].
  - apply bind_events.
    + destruct (find (src_id msg) (in_readys_ s)) as [[mx cur]|] eqn:Hf.
      * rewrite (IncreaseReady_found _ s mx cur Hf).
        destruct (Int64.add cur 1 <=? mx); constructor.
      * rewrite (IncreaseReady_unknown _ s Hf). constructor.
    + apply (Forall_expected_layout _ (state_of (IncreaseReady (src_id msg) s))).
      * apply same_layout_sym, layout_IncreaseReady.
      * apply Run_events.
  - apply bind_events.
    + destruct (find (src_id msg) (out_buffs_ s)) as [[mx cur]|] eqn:Hf.
      * rewrite (DecreaseBuff_found _ s mx cur Hf).
        destruct (Int64.sub cur 1 >=? 0); constructor.
      * rewrite (DecreaseBuff_unknown _ s Hf). constructor.
    + apply (Forall_expected_layout _ (state_of (DecreaseBuff (src_id msg) s))).
      * apply same_layout_sym, layout_DecreaseBuff.
      * apply Run_events.
Qed.

(** ** Credits and messages move together *)

Lemma after_passes_0 s : after_passes 0 s = s.
Proof.
  destruct s as [ins outs]. unfold after_passes; simpl. f_equal.
  - rewrite <- (map_id ins) at 2. apply map_ext.
    intros [k [mx c]]. unfold credits_down, peer, capacity, counter; simpl.
    now rewrite Z.sub_0_r.
  - rewrite <- (map_id outs) at 2. apply map_ext.
    intros [k [mx c]]. unfold credits_up, peer, capacity, counter; simpl.
    now rewrite Z.add_0_r.
Qed.

Lemma after_passes_after_pass k s :
  after_passes k (after_pass s) = after_passes (k + 1) s.
Proof.
  unfold after_passes, after_pass; simpl. rewrite !map_map. f_equal.
  - apply map_ext. intros [p [mx c]].
    unfold credits_down, credit_down, peer, capacity, counter; simpl.
    do 2 f_equal. lia.
  - apply map_ext. intros [p [mx c]].
    unfold credits_up, credit_up, peer, capacity, counter; simpl.
    do 2 f_equal. lia.
Qed.

Lemma sent_to_app dst t evs1 evs2 :
  sent_to dst t (evs1 ++ evs2) = (sent_to dst t evs1 + sent_to dst t evs2)%nat.
Proof. unfold sent_to. now rewrite filter_app, length_app. Qed.

(** One message per entry: a peer with a single entry gets a single
    message of the type the loop sends on that map. *)
Lemma sent_to_round dst t (m : edge_map) :
  NoDup (map peer m) -> In dst (map peer m) ->
  sent_to dst t (map (fun e => EvSend (peer e) t) m) = 1%nat.
Proof.
  assert (Hout : forall l, ~ In dst (map peer l) ->
            sent_to dst t (map (fun e => EvSend (peer e) t) l) = 0%nat).
  { induction l as [|e l IH]; intros Hnot; [reflexivity|].
    simpl in Hnot. unfold sent_to in *. cbn [map filter is_send].
    destruct (Z.eqb_spec (peer e) dst) as [Heq|Hne]; [tauto|].
    cbn [andb]. apply IH. tauto. }
  induction m as [|e m IH]; intros Hnd Hin; [contradiction|].
  simpl in Hnd, Hin. inversion Hnd as [|? ? Hnot Hnd']; subst.
  unfold sent_to in *. cbn [map filter is_send].
  destruct (Z.eqb_spec (peer e) dst) as [Heq|Hne].
  - subst dst. specialize (Hout m Hnot).
    destruct t; cbn [andb length]; rewrite Hout; reflexivity.
  - cbn [andb]. apply IH; [assumption|]. destruct Hin; [contradiction|assumption].
Qed.

(** The loop over the other map sends the other type. *)
Lemma sent_to_other_type dst t t' (m : edge_map) :
  t <> t' -> sent_to dst t (map (fun e => EvSend (peer e) t') m) = 0%nat.
Proof.
  intros Hne. unfold sent_to.
  induction m as [|e m IH]; [reflexivity|]. cbn [map filter is_send].
  destruct t, t'; try congruence; rewrite andb_false_r; exact IH.
Qed.

Lemma peers_after_pass s :
  map peer (in_readys_ (after_pass s)) = map peer (in_readys_ s) /\
  map peer (out_buffs_ (after_pass s)) = map peer (out_buffs_ s).
Proof. unfold after_pass; simpl. rewrite !map_map. split; reflexivity. Qed.

Lemma pass_events_after_pass s : pass_events (after_pass s) = pass_events s.
Proof.
  unfold pass_events, ready_msgs, reply_msgs, after_pass; simpl.
  rewrite !map_map. reflexivity.
Qed.

Lemma pass_events_app s evs :
  EvRun :: ready_msgs s ++ reply_msgs s ++ evs = pass_events s ++ evs.
Proof. unfold pass_events. simpl. now rewrite <- app_assoc. Qed.

Lemma work_units_pass_events s : work_units (pass_events s) = 1%nat.
Proof.
  unfold pass_events.
  change (EvRun :: ready_msgs s ++ reply_msgs s)
    with ([EvRun] ++ ready_msgs s ++ reply_msgs s).
  rewrite !work_units_app. unfold ready_msgs, reply_msgs.
  now rewrite !work_units_sends.
Qed.

Lemma sent_ready_pass d s :
  NoDup (map peer (out_buffs_ s)) -> In d (map peer (out_buffs_ s)) ->
  sent_to d DATA_IS_READY (pass_events s) = 1%nat.
Proof.
  intros Hnd Hin. unfold pass_events.
  change (EvRun :: ready_msgs s ++ reply_msgs s)
    with ([EvRun] ++ ready_msgs s ++ reply_msgs s).
  rewrite !sent_to_app. unfold ready_msgs, reply_msgs.
  rewrite (sent_to_round d DATA_IS_READY _ Hnd Hin).
  rewrite sent_to_other_type by discriminate. reflexivity.
Qed.

Lemma sent_reply_pass u s :
  NoDup (map peer (in_readys_ s)) -> In u (map peer (in_readys_ s)) ->
  sent_to u DATE_IS_USELESS (pass_events s) = 1%nat.
Proof.
  intros Hnd Hin. unfold pass_events.
  change (EvRun :: ready_msgs s ++ reply_msgs s)
    with ([EvRun] ++ ready_msgs s ++ reply_msgs s).
  rewrite !sent_to_app. unfold ready_msgs, reply_msgs.
  rewrite (sent_to_round u DATE_IS_USELESS _ Hnd Hin).
  rewrite sent_to_other_type by discriminate. reflexivity.
Qed.

(** X6.  At whatever point the loop of [Run] is observed on a stage that
    satisfies the invariant, every ready count has gone down and every used
    count has gone up by exactly the number of passes made so far; a
    downstream peer with a single entry has been sent exactly that many
    [DATA_IS_READY], an upstream peer with a single entry exactly that many
    [DATE_IS_USELESS]. *)
Theorem run_accounting (fuel : nat) (s : Interceptor) :
  Inv s ->
  let evs := events_of (Run fuel s) in
  state_of (Run fuel s) = after_passes (Z.of_nat (work_units evs)) s /\
  (forall d, NoDup (map peer (out_buffs_ s)) -> In d (map peer (out_buffs_ s)) ->
     sent_to d DATA_IS_READY evs = work_units evs) /\
  (forall u, NoDup (map peer (in_readys_ s)) -> In u (map peer (in_readys_ s)) ->
     sent_to u DATE_IS_USELESS evs = work_units evs).
Proof.
  revert s. induction fuel as [|fuel IH]; intros s Hinv.
  - assert (E : Run 0 s = (Ret tt, s, []) \/ Run 0 s = (OutOfFuel, s, []))
      by (simpl; case_gate s; auto).
    destruct E as [-> | ->]; cbn; rewrite after_passes_0; repeat split.
  - case_gate s.
    + rewrite Run_unfold_pass by assumption.
      specialize (IH (after_pass s) (after_pass_Inv s Hinv Hgate)).
      destruct (peers_after_pass s) as [Hpi Hpo].
      rewrite Hpi, Hpo in IH.
      destruct (Run fuel (after_pass s)) as [[r s'] evs0].
      unfold events_of, state_of in *. cbn [fst snd] in *.
      destruct IH as (Hst & Hd & Hu).
      rewrite pass_events_app, work_units_app, work_units_pass_events.
      split; [|split].
      * rewrite Hst, after_passes_after_pass. f_equal. lia.
      * intros d Hnd Hin.
        rewrite sent_to_app, (Hd d Hnd Hin), (sent_ready_pass d s Hnd Hin).
        reflexivity.
      * intros u Hnd Hin.
        rewrite sent_to_app, (Hu u Hnd Hin), (sent_reply_pass u s Hnd Hin).
        reflexivity.
    + rewrite Run_gate_false by assumption.
      cbn. rewrite after_passes_0. repeat split.
Qed.

(** ** How many passes the loop makes *)

Lemma min_list_pos rest : forall c,
  0 < fold_right Z.min c rest <-> Forall (fun x => 0 < x) (c :: rest).
Proof.
  induction rest as [|x rest IH]; intros c; simpl.
  - split; [intros H; repeat constructor; assumption|].
    intros H. now inversion H.
  - rewrite Z.min_glb_lt_iff, IH. split.
    + intros [Hx H]. inversion H; subst. repeat constructor; assumption.
    + intros H. inversion H as [|? ? Hc H']; subst.
      inversion H' as [|? ? Hx H'']; subst.
      split; [assumption|]. constructor; assumption.
Qed.

Lemma min_list_pred rest : forall c,
  fold_right Z.min (c - 1) (map (fun x => x - 1) rest)
  = fold_right Z.min c rest - 1.
Proof.
  induction rest as [|x rest IH]; intros c; simpl; [reflexivity|].
  rewrite IH. lia.
Qed.

Lemma min_list_nonneg rest : forall c,
  Forall (fun x => 0 <= x) (c :: rest) -> 0 <= fold_right Z.min c rest.
Proof.
  induction rest as [|x rest IH]; intros c H; simpl.
  - now inversion H.
  - inversion H as [|? ? Hc H']; subst. inversion H' as [|? ? Hx H'']; subst.
    apply Z.min_glb; [assumption|]. apply IH. constructor; assumption.
Qed.

Lemma credits_nonneg s : Inv s -> Forall (fun x => 0 <= x) (credits s).
Proof.
  intros [Hin Hout]. unfold credits. apply Forall_app. split; apply Forall_map.
  - eapply Forall_impl; [|exact Hin]. intros e [H _]. lia.
  - eapply Forall_impl; [|exact Hout]. intros e [H _]. lia.
Qed.

Lemma credits_after_pass s :
  credits (after_pass s) = map (fun x => x - 1) (credits s).
Proof.
  unfold credits, after_pass; simpl. rewrite map_app, !map_map. f_equal.
  apply map_ext. intros [p [mx c]].
  unfold credit_up, capacity, counter; simpl. lia.
Qed.

Lemma gate_credits s :
  Run_gate s = true <-> Forall (fun x => x <> 0) (credits s).
Proof.
  unfold Run_gate, credits.
  rewrite andb_true_iff, IsInputReady_Forall, CanWriteOutput_Forall.
  rewrite Forall_app, !Forall_map.
  split; intros [H1 H2]; (split; [exact H1|]);
    (eapply Forall_impl; [|exact H2]); intros e He; simpl in *; lia.
Qed.

Lemma credits_has_edge s : has_edge s -> credits s <> [].
Proof.
  unfold has_edge, credits. intros [H|H] Heq;
    apply app_eq_nil in Heq as [H1 H2];
    apply map_eq_nil in H1; apply map_eq_nil in H2; contradiction.
Qed.

Lemma budget_nonneg s : Inv s -> 0 <= budget s.
Proof.
  intros Hinv. pose proof (credits_nonneg s Hinv) as H. unfold budget.
  destruct (credits s) as [|c rest]; [lia|]. now apply min_list_nonneg.
Qed.

(** With a peer, the gate is open exactly when every edge has a credit
    left. *)
Lemma gate_budget s :
  Inv s -> has_edge s -> (Run_gate s = true <-> 0 < budget s).
Proof.
  intros Hinv Hedge. rewrite gate_credits.
  pose proof (credits_nonneg s Hinv) as Hnn.
  pose proof (credits_has_edge s Hedge) as Hne. unfold budget.
  destruct (credits s) as [|c rest]; [congruence|].
  rewrite min_list_pos. split; intros H.
  - eapply Forall_impl; [|exact (Forall_and_in _ _ _ Hnn H)].
    intros x [H1 H2]. lia.
  - eapply Forall_impl; [|exact H]. intros x Hx. simpl in Hx. lia.
Qed.

Lemma budget_after_pass s :
  has_edge s -> budget (after_pass s) = budget s - 1.
Proof.
  intros Hedge. pose proof (credits_has_edge s Hedge) as Hne.
  unfold budget. rewrite credits_after_pass.
  destruct (credits s) as [|c rest]; [congruence|].
  simpl. apply min_list_pred.
Qed.

Lemma passes_succ (A : Type) (l : list A) (b : Z) :
  0 < b ->
  l ++ concat (repeat l (Z.to_nat (b - 1))) = concat (repeat l (Z.to_nat b)).
Proof.
  intros Hb. replace (Z.to_nat b) with (S (Z.to_nat (b - 1))) by lia.
  reflexivity.
Qed.

(** X7.  On a stage that satisfies the invariant and has a peer, [Run]
    makes exactly as many passes as the most restrictive edge allows (the
    smallest ready count and the smallest room left, over all edges), moves
    every counter by that number, and repeats the same round of messages
    each pass. *)
Theorem run_exact_passes (fuel : nat) (s : Interceptor) :
  Inv s -> has_edge s -> (Z.to_nat (budget s) <= fuel)%nat ->
  Run fuel s
  = (Ret tt, after_passes (budget s) s,
     concat (repeat (pass_events s) (Z.to_nat (budget s)))).
Proof.
  revert s. induction fuel as [|fuel IH]; intros s Hinv Hedge Hfuel.
  - pose proof (budget_nonneg s Hinv) as Hnn.
    assert (Hb : budget s = 0) by lia.
    rewrite Run_gate_false.
    + rewrite Hb, after_passes_0. reflexivity.
    + apply not_true_is_false. rewrite gate_budget by assumption. lia.
  - case_gate s.
    + pose proof (proj1 (gate_budget s Hinv Hedge) Hgate) as Hpos.
      rewrite Run_unfold_pass by assumption.
      rewrite (IH (after_pass s)).
      * rewrite budget_after_pass by assumption.
        rewrite after_passes_after_pass, pass_events_after_pass.
        rewrite pass_events_app, passes_succ by assumption.
        replace (budget s - 1 + 1) with (budget s) by lia. reflexivity.
      * now apply after_pass_Inv.
      * now apply has_edge_after_pass.
      * rewrite budget_after_pass by assumption. lia.
    + pose proof (budget_nonneg s Hinv) as Hnn.
      assert (Hb : budget s = 0).
      { destruct (Z.eq_dec (budget s) 0) as [|Hne]; [assumption|].
        assert (Run_gate s = true) by (apply gate_budget; try assumption; lia).
        congruence. }
      rewrite Run_gate_false by assumption.
      rewrite Hb, after_passes_0. reflexivity.
Qed.

Lemma run_exact_passes_witness :
  let s := mkInterceptor [(1, (9, 4)); (2, (9, 3))] [(5, (6, 1)); (6, (2, 0))] in
  Inv s /\ budget s = 2 /\
  Run 7 s
  = (Ret tt, mkInterceptor [(1, (9, 2)); (2, (9, 1))] [(5, (6, 3)); (6, (2, 2))],
     concat (repeat (pass_events s) 2)).
Proof.
  intros s.
  assert (Hinv : Inv s) by inv_concrete.
  split; [exact Hinv|]. split; [reflexivity|].
  apply (run_exact_passes 7 s Hinv).
  - left. discriminate.
  - change (2 <= 7)%nat. lia.
Defined.

Lemma run_accounting_witness :
  let s := mkInterceptor [(1, (9, 4)); (2, (9, 3))] [(5, (6, 1)); (6, (2, 0))] in
  Inv s /\
  state_of (Run 7 s)
  = after_passes (Z.of_nat (work_units (events_of (Run 7 s)))) s /\
  sent_to 6 DATA_IS_READY (events_of (Run 7 s)) = work_units (events_of (Run 7 s)) /\
  sent_to 1 DATE_IS_USELESS (events_of (Run 7 s)) = work_units (events_of (Run 7 s)).
Proof.
  intros s.
  assert (Hinv : Inv s) by inv_concrete.
  destruct (run_accounting 7 s Hinv) as (H1 & H2 & H3).
  split; [exact Hinv|]. split; [exact H1|]. split.
  - apply H2.
    + repeat constructor; simpl; intuition discriminate.
    + simpl. tauto.
  - apply H3.
    + repeat constructor; simpl; intuition discriminate.
    + simpl. tauto.
Defined.

(** ** [DecreaseBuff] case by case *)

(** X3.  On a stage that satisfies the invariant, [DecreaseBuff] aborts
    with [NotFound] for an identifier that is not a downstream peer;
    aborts with the out-of-range error of its [PADDLE_ENFORCE_GE], changing
    nothing, for a peer whose used count is 0; and for a peer whose used
    count is not 0 it returns with that peer's used count lowered by
    exactly 1 and everything else as it was. *)
Theorem decrease_buff_cases (s : Interceptor) (down_id : Z) :
  Inv s ->
  (~ In down_id (map peer (out_buffs_ s)) ->
     DecreaseBuff down_id s = (Throw NotFound, s, [])) /\
  (forall mx,
     find down_id (out_buffs_ s) = Some (mx, 0) ->
     DecreaseBuff down_id s = (Throw OutOfRange_GE, s, [])) /\
  (forall mx cur,
     find down_id (out_buffs_ s) = Some (mx, cur) -> cur <> 0 ->
     exists pre post,
       out_buffs_ s = pre ++ (down_id, (mx, cur)) :: post /\
       ~ In down_id (map peer pre) /\
       DecreaseBuff down_id s
       = (Ret tt,
          mkInterceptor (in_readys_ s) (pre ++ (down_id, (mx, cur - 1)) :: post),
          [])).
Proof.
  intros Hinv. split; [|split].
  - intros Hnot. apply DecreaseBuff_unknown. now apply find_None.
  - intros mx Hf. rewrite (DecreaseBuff_found down_id s mx 0 Hf). reflexivity.
  - intros mx cur Hf Hne.
    destruct (Inv_find_out s down_id mx cur Hinv Hf) as [Hc Hm].
    unfold counter, capacity in Hc, Hm; simpl in Hc, Hm.
    destruct (assign_second_split down_id (cur - 1) _ mx cur Hf)
      as (pre & post & Hs & Hnot & Ha).
    exists pre, post. repeat split; try assumption.
    rewrite (DecreaseBuff_found down_id s mx cur Hf).
    rewrite sub_1_above by (pose proof min_signed_neg; lia).
    destruct (Z.geb_spec (cur - 1) 0); [|lia].
    rewrite Ha. reflexivity.
Qed.

Lemma decrease_buff_cases_witness :
  let s := mkInterceptor [(1, (3, 3))] [(5, (2, 0)); (6, (2, 2))] in
  DecreaseBuff 9 s = (Throw NotFound, s, []) /\
  DecreaseBuff 5 s = (Throw OutOfRange_GE, s, []) /\
  exists pre post,
    out_buffs_ s = pre ++ (6, (2, 2)) :: post /\
    ~ In 6 (map peer pre) /\
    DecreaseBuff 6 s
    = (Ret tt, mkInterceptor (in_readys_ s) (pre ++ (6, (2, 1)) :: post), []).
Proof.
  intros s.
  assert (Hinv : Inv s) by inv_concrete.
  split; [|split].
  - apply (proj1 (decrease_buff_cases s 9 Hinv)).
    simpl. intros [H|[H|[]]]; discriminate.
  - apply (proj1 (proj2 (decrease_buff_cases s 5 Hinv)) 2). reflexivity.
  - apply (proj2 (proj2 (decrease_buff_cases s 6 Hinv)) 2 2);
      [reflexivity | discriminate].
Defined.

(** ** A message that unblocks the stage *)

Lemma saturated_closes_gate s :
  Exists (fun e => counter e = capacity e) (out_buffs_ s) -> Run_gate s = false.
Proof.
  intros Hex. apply not_true_is_false. intros Hg.
  apply Run_gate_true in Hg as [_ Ho]. apply CanWriteOutput_Forall in Ho.
  rewrite Forall_forall in Ho. apply Exists_exists in Hex as (e & He & Heq).
  exact (Ho e He Heq).
Qed.

Lemma starved_closes_gate s :
  Exists (fun e => counter e = 0) (in_readys_ s) -> Run_gate s = false.
Proof.
  intros Hex. apply not_true_is_false. intros Hg.
  apply Run_gate_true in Hg as [Hi _]. apply IsInputReady_Forall in Hi.
  rewrite Forall_forall in Hi. apply Exists_exists in Hex as (e & He & Heq).
  exact (Hi e He Heq).
Qed.

Lemma find_map_counter (f : Z -> Z) id m :
  find id (map (fun e => (peer e, (capacity e, f (counter e)))) m)
  = match find id m with
    | Some (mx, c) => Some (mx, f c)
    | None => None
    end.
Proof.
  induction m as [|[k [mx c]] rest IH]; simpl; [reflexivity|].
  unfold peer at 1; simpl. destruct (k =? id); [reflexivity|exact IH].
Qed.

(** X8.  On a stage that satisfies the invariant, a [DATE_IS_USELESS]
    from a downstream peer whose edge is full frees one slot: the handler
    returns after one pass if every other edge allows it and after none
    otherwise, never after more, and after a pass that edge is full
    again. *)
Theorem consumed_releases_one_pass (s : Interceptor) (d mx : Z) (fuel : nat) :
  Inv s -> find d (out_buffs_ s) = Some (mx, mx) -> 0 < mx ->
  let s1 := set_out_buffs (assign_second d (mx - 1) (out_buffs_ s)) s in
  Compute (S fuel) (mkMsg d DATE_IS_USELESS) s
  = (if Run_gate s1
     then (Ret tt, after_pass s1, pass_events s1)
     else (Ret tt, s1, [])) /\
  find d (out_buffs_ (after_pass s1)) = Some (mx, mx).
Proof.
  intros Hinv Hf Hpos s1.
  destruct (DecreaseBuff_allowed s d mx mx Hinv Hf ltac:(lia)) as (E & Hi1 & _).
  fold s1 in E, Hi1.
  assert (Hfull : find d (out_buffs_ (after_pass s1)) = Some (mx, mx)).
  { unfold after_pass; cbn [out_buffs_].
    change (map credit_up (out_buffs_ s1))
      with (map (fun e => (peer e, (capacity e, (fun c => c + 1) (counter e))))
                (out_buffs_ s1)).
    rewrite find_map_counter. unfold s1; cbn [out_buffs_ set_out_buffs].
    rewrite (find_assign_second_same d _ _ mx mx Hf). f_equal. f_equal. lia. }
  split; [|exact Hfull].
  unfold Compute; cbn [message_type src_id]. unfold bind. rewrite E.
  case_gate s1.
  - rewrite Run_unfold_pass by assumption.
    rewrite Run_gate_false.
    + rewrite app_nil_r. reflexivity.
    + apply saturated_closes_gate. apply Exists_exists.
      exists (d, (mx, mx)). split; [now apply find_In | reflexivity].
  - rewrite Run_gate_false by assumption. reflexivity.
Qed.

Lemma consumed_releases_one_pass_witness :
  let s := mkInterceptor [(1, (9, 4))] [(5, (2, 2))] in
  Compute 3 (mkMsg 5 DATE_IS_USELESS) s
  = (Ret tt, mkInterceptor [(1, (9, 3))] [(5, (2, 2))],
     [EvRun; EvSend 5 DATA_IS_READY; EvSend 1 DATE_IS_USELESS]).
Proof.
  intros s.
  assert (Hinv : Inv s) by inv_concrete.
  exact (proj1 (consumed_releases_one_pass s 5 2 2 Hinv eq_refl eq_refl)).
Defined.

(** X9.  On a stage that satisfies the invariant, a [DATA_IS_READY] from
    an upstream peer whose edge holds no credit: the handler returns after
    one pass if every other edge allows it and after none otherwise, never
    after more, and after a pass that edge holds no credit again. *)
Theorem ready_releases_one_pass (s : Interceptor) (u mx : Z) (fuel : nat) :
  Inv s -> find u (in_readys_ s) = Some (mx, 0) -> 0 < mx ->
  let s1 := set_in_readys (assign_second u 1 (in_readys_ s)) s in
  Compute (S fuel) (mkMsg u DATA_IS_READY) s
  = (if Run_gate s1
     then (Ret tt, after_pass s1, pass_events s1)
     else (Ret tt, s1, [])) /\
  find u (in_readys_ (after_pass s1)) = Some (mx, 0).
Proof.
  intros Hinv Hf Hpos s1.
  destruct (IncreaseReady_allowed s u mx 0 Hinv Hf ltac:(lia)) as (E & Hi1 & _).
  change (0 + 1) with 1 in E, Hi1. fold s1 in E, Hi1.
  assert (Hnone : find u (in_readys_ (after_pass s1)) = Some (mx, 0)).
  { unfold after_pass; cbn [in_readys_].
    change (map credit_down (in_readys_ s1))
      with (map (fun e => (peer e, (capacity e, (fun c => c - 1) (counter e))))
                (in_readys_ s1)).
    rewrite find_map_counter. unfold s1; cbn [in_readys_ set_in_readys].
    rewrite (find_assign_second_same u _ _ mx 0 Hf). reflexivity. }
  split; [|exact Hnone].
  unfold Compute; cbn [message_type src_id]. unfold bind. rewrite E.
  case_gate s1.
  - rewrite Run_unfold_pass by assumption.
    rewrite Run_gate_false.
    + rewrite app_nil_r. reflexivity.
    + apply starved_closes_gate. apply Exists_exists.
      exists (u, (mx, 0)). split; [now apply find_In | reflexivity].
  - rewrite Run_gate_false by assumption. reflexivity.
Qed.

Lemma ready_releases_one_pass_witness :
  let s := mkInterceptor [(1, (9, 0)); (2, (9, 3))] [(5, (2, 1))] in
  Compute 3 (mkMsg 1 DATA_IS_READY) s
  = (Ret tt, mkInterceptor [(1, (9, 0)); (2, (9, 2))] [(5, (2, 2))],
     [EvRun; EvSend 5 DATA_IS_READY; EvSend 1 DATE_IS_USELESS;
      EvSend 2 DATE_IS_USELESS]).
Proof.
  intros s.
  assert (Hinv : Inv s) by inv_concrete.
  exact (proj1 (ready_releases_one_pass s 1 9 2 Hinv eq_refl eq_refl)).
Defined.

(** ** When the handler aborts *)

(** X11.  On a stage that satisfies the invariant and whose ready counts
    are below the largest [int64_t], a handler that aborts has changed
    nothing and sent nothing: the only check that can fail is the one of
    the counter update, before anything is stored, and [Run] is not
    entered. *)
Theorem handler_abort_is_clean (fuel : nat) (msg : InterceptorMessage)
    (s : Interceptor) (e : EnforceError) :
  Inv s ->
  Forall (fun ins => counter ins < Int64.max_signed) (in_readys_ s) ->
  result_of (Compute fuel msg s) = Throw e ->
  Compute fuel msg s = (Throw e, s, []).
Proof.
  intros Hinv Hb Hr. unfold Compute in *.
  destruct (message_type msg); [| |discriminate].
  - assert (Hb' : Forall (fun ins => counter ins <= Int64.max_signed - 1) (in_readys_ s)).
    { eapply Forall_impl; [|exact Hb]. intros x Hx. simpl in Hx. lia. }
    pose proof (IncreaseReady_keeps_Inv s (src_id msg) (Int64.max_signed - 1)
                  Hinv ltac:(lia) Hb') as [Hi _].
    unfold bind in *.
    destruct (find (src_id msg) (in_readys_ s)) as [[mx cur]|] eqn:Hf.
    + rewrite (IncreaseReady_found _ s mx cur Hf) in *.
      destruct (Int64.add cur 1 <=? mx).
      * exfalso. pose proof (proj2 (Run_keeps_Inv fuel _ Hi)) as Hno.
        unfold state_of in Hno; cbn [fst snd] in Hno.
        destruct (Run fuel _) as [[r s2] ev2]. cbn in Hr, Hno.
        rewrite Hr in Hno. apply Hno. exact I.
      * cbn in Hr. now injection Hr as ->.
    + rewrite (IncreaseReady_unknown _ s Hf) in *. cbn in Hr. now injection Hr as ->.
  - pose proof (DecreaseBuff_keeps_Inv s (src_id msg) Hinv) as [Hi _].
    unfold bind in *.
    destruct (find (src_id msg) (out_buffs_ s)) as [[mx cur]|] eqn:Hf.
    + rewrite (DecreaseBuff_found _ s mx cur Hf) in *.
      destruct (Int64.sub cur 1 >=? 0).
      * exfalso. pose proof (proj2 (Run_keeps_Inv fuel _ Hi)) as Hno.
        unfold state_of in Hno; cbn [fst snd] in Hno.
        destruct (Run fuel _) as [[r s2] ev2]. cbn in Hr, Hno.
        rewrite Hr in Hno. apply Hno. exact I.
      * cbn in Hr. now injection Hr as ->.
    + rewrite (DecreaseBuff_unknown _ s Hf) in *. cbn in Hr. now injection Hr as ->.
Qed.

Lemma handler_abort_is_clean_witness :
  let s := mkInterceptor [(1, (3, 3)); (2, (3, 1))] [(5, (2, 0))] in
  Compute 4 (mkMsg 1 DATA_IS_READY) s = (Throw OutOfRange_LE, s, []).
Proof.
  intros s. apply (handler_abort_is_clean 4 (mkMsg 1 DATA_IS_READY) s).
  - inv_concrete.
  - repeat constructor.
  - reflexivity.
Defined.

(** ** A stage without upstream peers *)

Lemma source_stage_step fuel msg s :
  in_readys_ s = [] -> Forall (fun e => counter e = 0) (out_buffs_ s) ->
  state_of (Compute fuel msg s) = s /\
  events_of (Compute fuel msg s) = [] /\
  result_of (Compute fuel msg s) <> OutOfFuel.
Proof.
  intros Hin Hz. unfold Compute, bind.
  destruct (message_type msg).
  - rewrite IncreaseReady_unknown by (rewrite Hin; reflexivity).
    cbn. repeat split. discriminate.
  - destruct (find (src_id msg) (out_buffs_ s)) as [[mx cur]|] eqn:Hf.
    + assert (cur = 0) as ->.
      { apply find_In in Hf. rewrite Forall_forall in Hz. exact (Hz _ Hf). }
      rewrite (DecreaseBuff_found _ s mx 0 Hf). cbn. repeat split. discriminate.
    + rewrite (DecreaseBuff_unknown _ s Hf). cbn. repeat split. discriminate.
  - cbn. repeat split. discriminate.
Qed.

(** X10.  A stage built by [PrepareDeps] without upstream peers never makes
    a pass: whatever messages it is given, the handler returns or aborts
    at once, every used count stays 0 and nothing is ever sent. *)
Theorem source_stage_never_runs (in_buff_size out_buff_size : Z)
    (downstream : list Z) (n : Z) (s : Interceptor) :
  reachable_in (PrepareDeps_sized in_buff_size out_buff_size [] downstream) n s ->
  s = PrepareDeps_sized in_buff_size out_buff_size [] downstream /\
  forall fuel msg,
    state_of (Compute fuel msg s) = s /\
    events_of (Compute fuel msg s) = [] /\
    result_of (Compute fuel msg s) <> OutOfFuel.
Proof.
  intros Hreach.
  assert (Hs0 : forall fuel msg,
            let s0 := PrepareDeps_sized in_buff_size out_buff_size [] downstream in
            state_of (Compute fuel msg s0) = s0 /\
            events_of (Compute fuel msg s0) = [] /\
            result_of (Compute fuel msg s0) <> OutOfFuel).
  { intros fuel msg s0. apply source_stage_step; [reflexivity|].
    simpl. apply emplace_all_Forall; [|apply Forall_nil].
    intros id. reflexivity. }
  assert (Heq : s = PrepareDeps_sized in_buff_size out_buff_size [] downstream).
  { induction Hreach as [|n s fuel msg Hreach IH]; [reflexivity|].
    rewrite IH. apply Hs0. }
  split; [exact Heq|]. rewrite Heq. exact Hs0.
Qed.

Lemma source_stage_never_runs_witness :
  let s0 := PrepareDeps [] [5; 6] in
  let s := state_of (Compute 3 (mkMsg 5 DATE_IS_USELESS) s0) in
  s = s0 /\
  forall fuel msg,
    state_of (Compute fuel msg s) = s /\
    events_of (Compute fuel msg s) = [] /\
    result_of (Compute fuel msg s) <> OutOfFuel.
Proof.
  intros s0 s.
  apply (source_stage_never_runs Int64.max_signed 2 [5; 6] 1 s).
  exact (reach_step s0 0 s0 3%nat (mkMsg 5 DATE_IS_USELESS) (reach_init s0)).
Defined.

(** ** Running the loop again *)

Lemma forallb_false_Exists {A} (f : A -> bool) l :
  forallb f l = false -> Exists (fun x => f x = false) l.
Proof.
  induction l as [|x l IH]; simpl; [discriminate|].
  destruct (f x) eqn:Hx; simpl; intros H.
  - right. now apply IH.
  - now left.
Qed.

(** X12.  When [Run] has returned, the stage is blocked by an edge: some
    upstream edge holds no credit or some downstream edge is full; and
    running the loop again does nothing, it returns at once with the same
    state and without a pass or a message. *)
Theorem run_returns_blocked (fuel : nat) (s s' : Interceptor) (evs : list event) :
  Run fuel s = (Ret tt, s', evs) ->
  (Exists (fun e => counter e = 0) (in_readys_ s') \/
   Exists (fun e => counter e = capacity e) (out_buffs_ s')) /\
  forall fuel', Run fuel' s' = (Ret tt, s', []).
Proof.
  intros E. pose proof (Run_returns_gate_closed fuel s s' evs E) as Hg.
  split; [|intros fuel'; now apply Run_gate_false].
  unfold Run_gate in Hg. apply andb_false_iff in Hg as [Hg|Hg];
    apply forallb_false_Exists in Hg; [left|right];
    (eapply Exists_impl; [|exact Hg]); intros e He; cbv beta in He;
    apply negb_false_iff in He; now apply Z.eqb_eq in He.
Qed.

Lemma run_returns_blocked_witness :
  let s := mkInterceptor [(1, (9, 4)); (2, (9, 3))] [(5, (2, 0))] in
  let s' := mkInterceptor [(1, (9, 2)); (2, (9, 1))] [(5, (2, 2))] in
  (Exists (fun e => counter e = 0) (in_readys_ s') \/
   Exists (fun e => counter e = capacity e) (out_buffs_ s')) /\
  forall fuel', Run fuel' s' = (Ret tt, s', []).
Proof.
  intros s s'.
  apply (run_returns_blocked 10 s s' (concat (repeat (pass_events s) 2))).
  reflexivity.
Defined.

(** ** What [PrepareDeps] builds *)

Lemma emplace_keys_above lo id v m :
  lo < id -> Forall (fun k => lo < k) (map peer m) ->
  Forall (fun k => lo < k) (map peer (emplace id v m)).
Proof.
  intros Hlo. induction m as [|[k w] rest IH]; simpl; intros H.
  - repeat constructor. exact Hlo.
  - destruct (id <? k); [constructor; assumption|].
    destruct (id =? k); [assumption|].
    inversion H; subst. simpl. constructor; auto.
Qed.

Lemma emplace_sorted id v m :
  StronglySorted Z.lt (map peer m) ->
  StronglySorted Z.lt (map peer (emplace id v m)).
Proof.
  induction m as [|[k w] rest IH]; simpl; intros H.
  - repeat constructor.
  - inversion H as [|? ? Hs Hall]; subst.
    destruct (Z.ltb_spec id k) as [Hlt|Hge].
    + simpl. constructor; [assumption|].
      constructor; [exact Hlt|].
      eapply Forall_impl; [|exact Hall]. intros x Hx. unfold peer in *; simpl in *. lia.
    + destruct (Z.eqb_spec id k) as [Heq|Hne]; [assumption|].
      simpl. constructor; [now apply IH|].
      apply emplace_keys_above; [unfold peer; simpl; lia | exact Hall].
Qed.

Lemma find_above id m :
  Forall (fun k => id < k) (map peer m) -> find id m = None.
Proof.
  induction m as [|[k w] rest IH]; simpl; intros H; [reflexivity|].
  inversion H as [|? ? Hk Hrest]; subst. unfold peer in Hk; simpl in Hk.
  destruct (Z.eqb_spec k id); [lia|]. now apply IH.
Qed.

(** Insert then look up, on a map with ascending keys. *)
Lemma find_emplace id id' v m :
  StronglySorted Z.lt (map peer m) ->
  find id' (emplace id v m)
  = if id =? id'
    then match find id m with Some w => Some w | None => Some v end
    else find id' m.
Proof.
  induction m as [|[k w] rest IH]; simpl; intros H.
  - destruct (id =? id'); reflexivity.
  - inversion H as [|? ? Hs Hall]; subst.
    destruct (Z.ltb_spec id k) as [Hlt|Hge].
    + simpl. destruct (Z.eqb_spec id id') as [<-|Hne]; [|reflexivity].
      destruct (Z.eqb_spec k id); [lia|].
      rewrite find_above; [reflexivity|].
      eapply Forall_impl; [|exact Hall]. intros x Hx.
      unfold peer in *; simpl in *. lia.
    + destruct (Z.eqb_spec id k) as [Heq|Hne].
      * subst k. simpl. destruct (Z.eqb_spec id id') as [<-|Hne'].
        -- now rewrite Z.eqb_refl.
        -- reflexivity.
      * simpl. rewrite (IH Hs).
        destruct (Z.eqb_spec k id') as [<-|Hk].
        -- destruct (Z.eqb_spec id k); [contradiction|].
           destruct (Z.eqb_spec k id); [congruence|reflexivity].
        -- destruct (Z.eqb_spec id id') as [<-|Hne'].
           ++ destruct (Z.eqb_spec k id); [congruence|reflexivity].
           ++ reflexivity.
Qed.

Lemma emplace_all_sorted v ids : forall m,
  StronglySorted Z.lt (map peer m) ->
  StronglySorted Z.lt (map peer (fold_left (fun m id => emplace id v m) ids m)).
Proof.
  induction ids as [|id ids IH]; intros m H; simpl; [assumption|].
  apply IH. now apply emplace_sorted.
Qed.

Lemma find_emplace_all v id ids : forall m,
  StronglySorted Z.lt (map peer m) ->
  find id (fold_left (fun m id => emplace id v m) ids m)
  = match find id m with
    | Some w => Some w
    | None => if existsb (Z.eqb id) ids then Some v else None
    end.
Proof.
  induction ids as [|x ids IH]; intros m H; simpl.
  - destruct (find id m); reflexivity.
  - rewrite (IH _ (emplace_sorted x v m H)), (find_emplace x id v m H).
    rewrite (Z.eqb_sym id x).
    destruct (Z.eqb_spec x id) as [->|Hne]; simpl.
    + destruct (find id m); reflexivity.
    + reflexivity.
Qed.

Lemma existsb_eqb_In id ids : existsb (Z.eqb id) ids = true <-> In id ids.
Proof.
  rewrite existsb_exists. split.
  - intros (x & Hin & Heq). apply Z.eqb_eq in Heq. now subst.
  - intros Hin. exists id. split; [assumption|apply Z.eqb_refl].
Qed.

Lemma sorted_peers_NoDup (m : edge_map) :
  StronglySorted Z.lt (map peer m) -> NoDup (map peer m).
Proof.
  induction 1 as [|k ks Hs IH Hall]; constructor; [|assumption].
  intros Hin. rewrite Forall_forall in Hall. specialize (Hall k Hin). lia.
Qed.

(** X1.  [PrepareDeps] gives every listed upstream peer a ready count 0
    under the largest [int64_t] as capacity, and every listed downstream
    peer a used count 0 under capacity 2, however often and in whatever
    order the peers are listed; an identifier that is not listed has no
    entry. *)
Theorem prepare_deps_lookup (upstream downstream : list Z) (id : Z) :
  let s := PrepareDeps upstream downstream in
  (In id upstream -> find id (in_readys_ s) = Some (Int64.max_signed, 0)) /\
  (~ In id upstream -> find id (in_readys_ s) = None) /\
  (In id downstream -> find id (out_buffs_ s) = Some (2, 0)) /\
  (~ In id downstream -> find id (out_buffs_ s) = None).
Proof.
  intros s. unfold s, PrepareDeps, PrepareDeps_sized; cbn [in_readys_ out_buffs_].
  rewrite !find_emplace_all by constructor. simpl find.
  repeat split; intros H.
  - apply existsb_eqb_In in H. now rewrite H.
  - destruct (existsb (Z.eqb id) upstream) eqn:E; [|reflexivity].
    apply existsb_eqb_In in E. contradiction.
  - apply existsb_eqb_In in H. now rewrite H.
  - destruct (existsb (Z.eqb id) downstream) eqn:E; [|reflexivity].
    apply existsb_eqb_In in E. contradiction.
Qed.

Lemma prepare_deps_lookup_witness :
  let s := PrepareDeps [7; 3; 7] [4] in
  find 7 (in_readys_ s) = Some (Int64.max_signed, 0) /\
  find 4 (in_readys_ s) = None /\
  find 4 (out_buffs_ s) = Some (2, 0) /\
  find 7 (out_buffs_ s) = None.
Proof.
  intros s.
  destruct (prepare_deps_lookup [7; 3; 7] [4] 7) as (H1 & _ & _ & H4).
  destruct (prepare_deps_lookup [7; 3; 7] [4] 4) as (_ & H2 & H3 & _).
  split; [apply H1; simpl; tauto|].
  split; [apply H2; simpl; intros [H|[H|[H|[]]]]; discriminate|].
  split; [apply H3; simpl; tauto|].
  apply H4; simpl; intros [H|[]]; discriminate.
Defined.

(** ** Backpressure *)

(** X13.  While some downstream edge is full, a [DATA_IS_READY] is only
    counted: the sender's ready count goes up by 1, no pass is made and
    nothing is sent.  While some upstream edge holds no credit, a
    [DATE_IS_USELESS] is only counted in the same way. *)
Theorem blocked_stage_only_counts (s : Interceptor) (fuel : nat) (id mx c : Z) :
  Inv s ->
  (Exists (fun e => counter e = capacity e) (out_buffs_ s) ->
   find id (in_readys_ s) = Some (mx, c) -> c <> mx ->
   Compute fuel (mkMsg id DATA_IS_READY) s
   = (Ret tt, set_in_readys (assign_second id (c + 1) (in_readys_ s)) s, [])) /\
  (Exists (fun e => counter e = 0) (in_readys_ s) ->
   find id (out_buffs_ s) = Some (mx, c) -> c <> 0 ->
   Compute fuel (mkMsg id DATE_IS_USELESS) s
   = (Ret tt, set_out_buffs (assign_second id (c - 1) (out_buffs_ s)) s, [])).
Proof.
  intros Hinv. split; intros Hex Hf Hne;
    unfold Compute; cbn [message_type src_id]; unfold bind.
  - destruct (IncreaseReady_allowed s id mx c Hinv Hf Hne) as (E & _ & _).
    rewrite E. rewrite Run_gate_false; [reflexivity|].
    now apply saturated_closes_gate.
  - destruct (DecreaseBuff_allowed s id mx c Hinv Hf Hne) as (E & _ & _).
    rewrite E. rewrite Run_gate_false; [reflexivity|].
    now apply starved_closes_gate.
Qed.

Lemma blocked_stage_only_counts_witness :
  let s := mkInterceptor [(1, (9, 4)); (2, (9, 0))] [(5, (2, 2))] in
  Compute 3 (mkMsg 1 DATA_IS_READY) s
  = (Ret tt, mkInterceptor [(1, (9, 5)); (2, (9, 0))] [(5, (2, 2))], []) /\
  Compute 3 (mkMsg 5 DATE_IS_USELESS) s
  = (Ret tt, mkInterceptor [(1, (9, 4)); (2, (9, 0))] [(5, (2, 1))], []).
Proof.
  intros s.
  assert (Hinv : Inv s) by inv_concrete.
  split.
  - apply (proj1 (blocked_stage_only_counts s 3 1 9 4 Hinv));
      [| reflexivity | discriminate].
    constructor. reflexivity.
  - apply (proj2 (blocked_stage_only_counts s 3 5 2 2 Hinv));
      [| reflexivity | discriminate].
    right. constructor. reflexivity.
Defined.

(** ** The ledger of credits *)

Lemma layout_Compute fuel msg s : same_layout s (state_of (Compute fuel msg s)).
Proof.
  unfold Compute. destruct (message_type msg).
  - apply (bind_keeps same_layout);
      [exact same_layout_trans | apply layout_IncreaseReady | apply layout_Run].
  - apply (bind_keeps same_layout);
      [exact same_layout_trans | apply layout_DecreaseBuff | apply layout_Run].
  - apply same_layout_refl.
Qed.

Lemma find_peer id m v : find id m = Some v -> In id (map peer m).
Proof.
  intros H. apply find_In in H. now apply (in_map peer) in H.
Qed.

(** The loop, seen from one edge: the counter moves with the messages sent
    to its peer. *)
Lemma Run_balance fuel : forall s,
  Inv s ->
  NoDup (map peer (in_readys_ s)) -> NoDup (map peer (out_buffs_ s)) ->
  (forall u mx c,
      find u (in_readys_ s) = Some (mx, c) ->
      find u (in_readys_ (state_of (Run fuel s)))
      = Some (mx, c - Z.of_nat (sent_to u DATE_IS_USELESS (events_of (Run fuel s))))) /\
  (forall d mx c,
      find d (out_buffs_ s) = Some (mx, c) ->
      find d (out_buffs_ (state_of (Run fuel s)))
      = Some (mx, c + Z.of_nat (sent_to d DATA_IS_READY (events_of (Run fuel s))))).
Proof.
  induction fuel as [|fuel IH]; intros s Hinv Hni Hno.
  - assert (E : Run 0 s = (Ret tt, s, []) \/ Run 0 s = (OutOfFuel, s, []))
      by (simpl; case_gate s; auto).
    destruct E as [-> | ->]; cbn; split; intros p mx c Hf; rewrite Hf;
      do 2 f_equal; lia.
  - case_gate s.
    + rewrite Run_unfold_pass by assumption.
      destruct (peers_after_pass s) as [Hpi Hpo].
      destruct (IH (after_pass s) (after_pass_Inv s Hinv Hgate)) as [Hu Hd];
        [now rewrite Hpi | now rewrite Hpo |].
      destruct (Run fuel (after_pass s)) as [[r s'] evs0].
      unfold events_of, state_of in *. cbn [fst snd] in *.
      rewrite pass_events_app. split; intros p mx c Hf.
      * rewrite sent_to_app, (sent_reply_pass p s Hni (find_peer _ _ _ Hf)).
        rewrite (Hu p mx (c - 1)); [do 2 f_equal; lia|].
        unfold after_pass; cbn [in_readys_].
        change (map credit_down (in_readys_ s))
          with (map (fun e => (peer e, (capacity e, (fun c => c - 1) (counter e))))
                    (in_readys_ s)).
        now rewrite find_map_counter, Hf.
      * rewrite sent_to_app, (sent_ready_pass p s Hno (find_peer _ _ _ Hf)).
        rewrite (Hd p mx (c + 1)); [do 2 f_equal; lia|].
        unfold after_pass; cbn [out_buffs_].
        change (map credit_up (out_buffs_ s))
          with (map (fun e => (peer e, (capacity e, (fun c => c + 1) (counter e))))
                    (out_buffs_ s)).
        now rewrite find_map_counter, Hf.
    + rewrite Run_gate_false by assumption.
      cbn; split; intros p mx c Hf; rewrite Hf; do 2 f_equal; lia.
Qed.

Lemma NoDup_same_layout s s' :
  same_layout s s' ->
  NoDup (map peer (in_readys_ s)) /\ NoDup (map peer (out_buffs_ s)) ->
  NoDup (map peer (in_readys_ s')) /\ NoDup (map peer (out_buffs_ s')).
Proof.
  intros [Hi Ho]. rewrite !layout_peers, Hi, Ho. tauto.
Qed.

Lemma arrived_cons id t msg rest :
  arrived id t (msg :: rest)
  = ((if is_from id t msg then 1 else 0) + arrived id t rest)%nat.
Proof. unfold arrived. simpl. destruct (is_from id t msg); reflexivity. Qed.

(** One handled message, seen from one edge. *)
Lemma Compute_balance fuel msg s s' evs :
  Inv s ->
  NoDup (map peer (in_readys_ s)) -> NoDup (map peer (out_buffs_ s)) ->
  Forall (fun e => counter e < Int64.max_signed) (in_readys_ s) ->
  Compute fuel msg s = (Ret tt, s', evs) ->
  (forall u mx c,
      find u (in_readys_ s) = Some (mx, c) ->
      find u (in_readys_ s')
      = Some (mx, c + Z.of_nat (if is_from u DATA_IS_READY msg then 1 else 0)
                    - Z.of_nat (sent_to u DATE_IS_USELESS evs))) /\
  (forall d mx c,
      find d (out_buffs_ s) = Some (mx, c) ->
      find d (out_buffs_ s')
      = Some (mx, c + Z.of_nat (sent_to d DATA_IS_READY evs)
                    - Z.of_nat (if is_from d DATE_IS_USELESS msg then 1 else 0))).
Proof.
  intros Hinv Hni Hno Hb E. unfold Compute in E. unfold is_from.
  destruct (message_type msg) eqn:Ht; cbv iota.
  - (* DATA_IS_READY *)
    unfold bind in E.
    destruct (find (src_id msg) (in_readys_ s)) as [[mx0 c0]|] eqn:Hf;
      [|rewrite (IncreaseReady_unknown _ s Hf) in E; discriminate].
    rewrite (IncreaseReady_found _ s mx0 c0 Hf) in E.
    destruct (Inv_find_in s _ mx0 c0 Hinv Hf) as [Hc0 _].
    unfold counter, capacity in Hc0; simpl in Hc0.
    assert (Hlt : c0 < Int64.max_signed).
    { apply find_In in Hf. rewrite Forall_forall in Hb. exact (Hb _ Hf). }
    rewrite add_1_below in E by (pose proof min_signed_neg; lia).
    destruct (Z.leb_spec (c0 + 1) mx0) as [Hle|]; [|discriminate].
    set (s1 := set_in_readys (assign_second (src_id msg) (c0 + 1) (in_readys_ s)) s) in E.
    assert (Hi1 : Inv s1).
    { destruct Hinv as [Hin Hout]. split; [|exact Hout].
      apply (assign_second_Forall edge_ok _ mx0 c0); try assumption.
      unfold edge_ok, counter, capacity; simpl.
      destruct (Inv_find_in s _ mx0 c0 (conj Hin Hout) Hf) as [_ Hm].
      unfold capacity in Hm; simpl in Hm. lia. }
    assert (Hn1 : NoDup (map peer (in_readys_ s1)) /\ NoDup (map peer (out_buffs_ s1))).
    { apply (NoDup_same_layout s); [|split; assumption].
      split; simpl; [apply layout_assign_second|reflexivity]. }
    destruct (Run_balance fuel s1 Hi1 (proj1 Hn1) (proj2 Hn1)) as [Hu Hd].
    destruct (Run fuel s1) as [[r s2] ev2].
    unfold events_of, state_of in *. cbn [fst snd] in *.
    simpl in E. injection E as -> -> ->.
    split; intros p mx c Hp.
    + destruct (Z.eqb_spec (src_id msg) p) as [Heq|Hne]; cbn [andb].
      * subst p. rewrite Hf in Hp. injection Hp as -> ->.
        rewrite (Hu (src_id msg) mx (c + 1)); [do 2 f_equal; lia|].
        unfold s1; cbn [in_readys_ set_in_readys].
        now apply (find_assign_second_same _ _ _ mx c).
      * rewrite (Hu p mx c); [do 2 f_equal; lia|].
        unfold s1; cbn [in_readys_ set_in_readys].
        rewrite find_assign_second_other by congruence. exact Hp.
    + rewrite andb_false_r. rewrite (Hd p mx c Hp). do 2 f_equal. lia.
  - (* DATE_IS_USELESS *)
    unfold bind in E.
    destruct (find (src_id msg) (out_buffs_ s)) as [[mx0 c0]|] eqn:Hf;
      [|rewrite (DecreaseBuff_unknown _ s Hf) in E; discriminate].
    rewrite (DecreaseBuff_found _ s mx0 c0 Hf) in E.
    destruct (Inv_find_out s _ mx0 c0 Hinv Hf) as [Hc0 Hm0].
    unfold counter, capacity in Hc0, Hm0; simpl in Hc0, Hm0.
    rewrite sub_1_above in E by (pose proof min_signed_neg; lia).
    destruct (Z.geb_spec (c0 - 1) 0) as [Hge|]; [|discriminate].
    set (s1 := set_out_buffs (assign_second (src_id msg) (c0 - 1) (out_buffs_ s)) s) in E.
    assert (Hi1 : Inv s1).
    { destruct Hinv as [Hin Hout]. split; [exact Hin|].
      apply (assign_second_Forall edge_ok _ mx0 c0); try assumption.
      unfold edge_ok, counter, capacity; simpl. lia. }
    assert (Hn1 : NoDup (map peer (in_readys_ s1)) /\ NoDup (map peer (out_buffs_ s1))).
    { apply (NoDup_same_layout s); [|split; assumption].
      split; simpl; [reflexivity|apply layout_assign_second]. }
    destruct (Run_balance fuel s1 Hi1 (proj1 Hn1) (proj2 Hn1)) as [Hu Hd].
    destruct (Run fuel s1) as [[r s2] ev2].
    unfold events_of, state_of in *. cbn [fst snd] in *.
    simpl in E. injection E as -> -> ->.
    split; intros p mx c Hp.
    + rewrite andb_false_r. rewrite (Hu p mx c Hp). do 2 f_equal. lia.
    + destruct (Z.eqb_spec (src_id msg) p) as [Heq|Hne]; cbn [andb].
      * subst p. rewrite Hf in Hp. injection Hp as -> ->.
        rewrite (Hd (src_id msg) mx (c - 1)); [do 2 f_equal; lia|].
        unfold s1; cbn [out_buffs_ set_out_buffs].
        now apply (find_assign_second_same _ _ _ mx c).
      * rewrite (Hd p mx c); [do 2 f_equal; lia|].
        unfold s1; cbn [out_buffs_ set_out_buffs].
        rewrite find_assign_second_other by congruence. exact Hp.
  - (* anything else *)
    injection E as <- <-.
    split; intros p mx c Hp; rewrite andb_false_r, Hp; cbn; do 2 f_equal; lia.
Qed.

(** A handled sequence, seen from one edge. *)
Lemma Deliver_balance fuel msgs : forall s s' evs,
  Inv s ->
  NoDup (map peer (in_readys_ s)) -> NoDup (map peer (out_buffs_ s)) ->
  Forall (fun e => counter e <= Int64.max_signed - Z.of_nat (length msgs))
         (in_readys_ s) ->
  Deliver fuel msgs s = (Ret tt, s', evs) ->
  Inv s' /\
  (forall u mx c,
      find u (in_readys_ s) = Some (mx, c) ->
      find u (in_readys_ s')
      = Some (mx, c + Z.of_nat (arrived u DATA_IS_READY msgs)
                    - Z.of_nat (sent_to u DATE_IS_USELESS evs))) /\
  (forall d mx c,
      find d (out_buffs_ s) = Some (mx, c) ->
      find d (out_buffs_ s')
      = Some (mx, c + Z.of_nat (sent_to d DATA_IS_READY evs)
                    - Z.of_nat (arrived d DATE_IS_USELESS msgs))).
Proof.
  induction msgs as [|msg rest IH]; intros s s' evs Hinv Hni Hno Hb E.
  - injection E as <- <-. split; [assumption|].
    split; intros p mx c Hp; rewrite Hp; cbn; do 2 f_equal; lia.
  - cbn [Deliver] in E. unfold bind in E.
    destruct (Compute fuel msg s) as [[[[]|e|] s1] ev1] eqn:E1; try discriminate.
    destruct (Deliver fuel rest s1) as [[r2 s2] ev2] eqn:E2.
    injection E as -> -> <-.
    cbn [length] in Hb. rewrite Nat2Z.inj_succ in Hb.
    set (n := Int64.max_signed - Z.succ (Z.of_nat (length rest))) in Hb.
    assert (Hn : n < Int64.max_signed) by (unfold n; lia).
    pose proof (Compute_keeps_Inv fuel msg s n Hinv Hn Hb) as [Hi1 Hb1].
    pose proof (NoDup_same_layout s _ (layout_Compute fuel msg s) (conj Hni Hno))
      as [Hni1 Hno1].
    rewrite E1 in Hi1, Hb1, Hni1, Hno1.
    unfold state_of in Hi1, Hb1, Hni1, Hno1; cbn [fst snd] in Hi1, Hb1, Hni1, Hno1.
    assert (Hlt : Forall (fun e => counter e < Int64.max_signed) (in_readys_ s)).
    { eapply Forall_impl; [|exact Hb]. intros x Hx. simpl in Hx. lia. }
    destruct (Compute_balance fuel msg s s1 ev1 Hinv Hni Hno Hlt E1) as [Hu1 Hd1].
    destruct (IH s1 s' ev2 Hi1 Hni1 Hno1) as (Hi2 & Hu2 & Hd2); [|exact E2|].
    { eapply Forall_impl; [|exact Hb1]. intros x Hx. simpl in Hx. unfold n in Hx. lia. }
    split; [exact Hi2|].
    split; intros p mx c Hp; rewrite arrived_cons, sent_to_app.
    + rewrite (Hu2 p mx _ (Hu1 p mx c Hp)). do 2 f_equal. lia.
    + rewrite (Hd2 p mx _ (Hd1 p mx c Hp)). do 2 f_equal. lia.
Qed.

(** X14.  When the handler has returned from every message of a sequence
    given to a freshly prepared stage, the ready count of each upstream
    peer is the number of [DATA_IS_READY] that arrived from it minus the
    number of [DATE_IS_USELESS] sent to it, and the stage has never
    acknowledged more than it received; the used count of each downstream
    peer is the number of [DATA_IS_READY] sent to it minus the number of
    [DATE_IS_USELESS] that arrived from it, and the stage never has more
    than 2 unacknowledged [DATA_IS_READY] out to a peer. *)
Theorem credits_ledger (upstream downstream : list Z) (fuel : nat)
    (msgs : list InterceptorMessage) (s' : Interceptor) (evs : list event) :
  Z.of_nat (length msgs) <= Int64.max_signed ->
  Deliver fuel msgs (PrepareDeps upstream downstream) = (Ret tt, s', evs) ->
  (forall u, In u upstream ->
     let got := Z.of_nat (arrived u DATA_IS_READY msgs) in
     let replied := Z.of_nat (sent_to u DATE_IS_USELESS evs) in
     find u (in_readys_ s') = Some (Int64.max_signed, got - replied) /\
     replied <= got) /\
  (forall d, In d downstream ->
     let sent := Z.of_nat (sent_to d DATA_IS_READY evs) in
     let freed := Z.of_nat (arrived d DATE_IS_USELESS msgs) in
     find d (out_buffs_ s') = Some (2, sent - freed) /\
     freed <= sent <= freed + 2).
Proof.
  intros Hlen E.
  set (s0 := PrepareDeps upstream downstream) in *.
  assert (Hinv : Inv s0) by apply PrepareDeps_Inv.
  assert (Hni : NoDup (map peer (in_readys_ s0))).
  { apply sorted_peers_NoDup. simpl. apply emplace_all_sorted. constructor. }
  assert (Hno : NoDup (map peer (out_buffs_ s0))).
  { apply sorted_peers_NoDup. simpl. apply emplace_all_sorted. constructor. }
  assert (Hb : Forall (fun e => counter e <= Int64.max_signed - Z.of_nat (length msgs))
                 (in_readys_ s0)).
  { eapply Forall_impl; [|apply PrepareDeps_sized_zero].
    intros e He. simpl in He. lia. }
  destruct (Deliver_balance fuel msgs s0 s' evs Hinv Hni Hno Hb E) as (Hi' & Hu & Hd).
  split.
  - intros u Hin arr rep.
    assert (Hf : find u (in_readys_ s0) = Some (Int64.max_signed, 0)).
    { simpl. rewrite find_emplace_all by constructor. simpl find.
      apply existsb_eqb_In in Hin. now rewrite Hin. }
    specialize (Hu u _ _ Hf). rewrite Z.add_0_l in Hu.
    split; [exact Hu|].
    destruct (Inv_find_in s' u _ _ Hi' Hu) as [Hc _].
    unfold counter in Hc; simpl in Hc. subst arr rep. lia.
  - intros d Hin sent freed.
    assert (Hf : find d (out_buffs_ s0) = Some (2, 0)).
    { simpl. rewrite find_emplace_all by constructor. simpl find.
      apply existsb_eqb_In in Hin. now rewrite Hin. }
    specialize (Hd d _ _ Hf). rewrite Z.add_0_l in Hd.
    split; [exact Hd|].
    destruct (Inv_find_out s' d _ _ Hi' Hd) as [Hc _].
    unfold counter, capacity in Hc; simpl in Hc. subst sent freed. lia.
Qed.

Lemma credits_ledger_witness :
  let msgs := [mkMsg 1 DATA_IS_READY; mkMsg 1 DATA_IS_READY;
               mkMsg 1 DATA_IS_READY; mkMsg 5 DATE_IS_USELESS] in
  let run := Deliver 3 msgs (PrepareDeps [1] [5]) in
  find 1 (in_readys_ (state_of run))
  = Some (Int64.max_signed,
          Z.of_nat (arrived 1 DATA_IS_READY msgs)
          - Z.of_nat (sent_to 1 DATE_IS_USELESS (events_of run))) /\
  Z.of_nat (sent_to 5 DATA_IS_READY (events_of run))
  <= Z.of_nat (arrived 5 DATE_IS_USELESS msgs) + 2.
Proof.
  intros msgs run.
  assert (Hlen : Z.of_nat (length msgs) <= Int64.max_signed).
  { apply Z.lt_le_incl. reflexivity. }
  assert (E : Deliver 3 msgs (PrepareDeps [1] [5])
              = (Ret tt, state_of run, events_of run)) by reflexivity.
  destruct (credits_ledger [1] [5] 3 msgs _ _ Hlen E) as [Hu Hd].
  split.
  - apply (Hu 1). simpl. tauto.
  - apply (Hd 5). simpl. tauto.
Defined.

(** ** The handler comes back *)

Lemma enters_Run_terminates {A} (m : M A) s a s1 ev1 :
  m s = (Ret a, s1, ev1) -> Inv s1 -> has_edge s1 ->
  exists fuel, forall fuel', (fuel <= fuel')%nat ->
    (m ;; Run fuel') s = (m ;; Run fuel) s /\
    result_of ((m ;; Run fuel') s) = Ret tt.
Proof.
  intros E Hi He. exists (Z.to_nat (slack s1)). intros fuel' Hle.
  pose proof (Run_ends_within (Z.to_nat (slack s1)) s1 Hi He ltac:(lia)) as Hend.
  pose proof (Run_more_fuel _ s1 fuel' Hend Hle) as Hmore.
  unfold bind. rewrite E, Hmore.
  destruct (Run (Z.to_nat (slack s1)) s1) as [[r s2] ev2]. cbn in Hend. subst r.
  split; reflexivity.
Qed.

(** X15.  On a stage that satisfies the invariant and whose ready counts
    are below the largest [int64_t], the handler comes back from every
    message, by returning or by aborting: from some number of passes on,
    allowing more passes changes nothing and the loop is not cut short.
    This holds also for a stage without any peer, whose handler aborts
    before it enters [Run]. *)
Theorem handler_comes_back (msg : InterceptorMessage) (s : Interceptor) :
  Inv s ->
  Forall (fun ins => counter ins < Int64.max_signed) (in_readys_ s) ->
  exists fuel, forall fuel', (fuel <= fuel')%nat ->
    Compute fuel' msg s = Compute fuel msg s /\
    result_of (Compute fuel' msg s) <> OutOfFuel.
Proof.
  intros Hinv Hb. unfold Compute.
  destruct (message_type msg).
  - destruct (find (src_id msg) (in_readys_ s)) as [[mx c]|] eqn:Hf.
    + assert (Hb' : Forall (fun ins => counter ins <= Int64.max_signed - 1) (in_readys_ s)).
      { eapply Forall_impl; [|exact Hb]. intros x Hx. simpl in Hx. lia. }
      pose proof (IncreaseReady_keeps_Inv s (src_id msg) (Int64.max_signed - 1)
                    Hinv ltac:(lia) Hb') as [Hi _].
      pose proof (IncreaseReady_found _ s mx c Hf) as E. rewrite E in Hi.
      destruct (Int64.add c 1 <=? mx).
      * destruct (enters_Run_terminates _ s tt _ _ E Hi) as [fuel Hfuel].
        { left. cbn. now apply (assign_second_nonempty _ _ _ mx c). }
        exists fuel. intros fuel' Hle. destruct (Hfuel fuel' Hle) as [H1 H2].
        split; [exact H1|]. rewrite H2. discriminate.
      * exists 0%nat. intros fuel' _. unfold bind. rewrite E.
        split; [reflexivity|discriminate].
    + exists 0%nat. intros fuel' _. unfold bind.
      rewrite (IncreaseReady_unknown _ s Hf). split; [reflexivity|discriminate].
  - destruct (find (src_id msg) (out_buffs_ s)) as [[mx c]|] eqn:Hf.
    + pose proof (DecreaseBuff_keeps_Inv s (src_id msg) Hinv) as [Hi _].
      pose proof (DecreaseBuff_found _ s mx c Hf) as E. rewrite E in Hi.
      destruct (Int64.sub c 1 >=? 0).
      * destruct (enters_Run_terminates _ s tt _ _ E Hi) as [fuel Hfuel].
        { right. cbn. now apply (assign_second_nonempty _ _ _ mx c). }
        exists fuel. intros fuel' Hle. destruct (Hfuel fuel' Hle) as [H1 H2].
        split; [exact H1|]. rewrite H2. discriminate.
      * exists 0%nat. intros fuel' _. unfold bind. rewrite E.
        split; [reflexivity|discriminate].
    + exists 0%nat. intros fuel' _. unfold bind.
      rewrite (DecreaseBuff_unknown _ s Hf). split; [reflexivity|discriminate].
  - exists 0%nat. intros fuel' _. split; [reflexivity|discriminate].
Qed.

Lemma handler_comes_back_witness :
  let s := mkInterceptor [(1, (9, 4)); (2, (9, 3))] [(5, (6, 1))] in
  exists fuel, forall fuel', (fuel <= fuel')%nat ->
    Compute fuel' (mkMsg 1 DATA_IS_READY) s = Compute fuel (mkMsg 1 DATA_IS_READY) s /\
    result_of (Compute fuel' (mkMsg 1 DATA_IS_READY) s) <> OutOfFuel.
Proof.
  intros s. apply (handler_comes_back (mkMsg 1 DATA_IS_READY) s).
  - inv_concrete.
  - repeat constructor.
Defined.

(** * Properties that depend on the state of the counters *)

(** ** States the handler reaches with 2^63 messages and more *)




(** ** Used counts stay within their capacity *)








(** ** The gate predicates *)




(** ** One pass of the loop *)












(** ** Termination of the loop *)











(** ** [IncreaseReady] on any state *)



(** ** The invariant, operation by operation *)




